(** * Residue: the log request ingestion and dispatch pipeline

    A shallow embedding of [src/logging/log-request-handler.cc]
    ([LogRequestHandler::handle], [processRequestQueue], [processRequest],
    [dispatch], [isRequestAllowed]) and of the collaborators it calls.

    Conventions.
    - [unsigned long] timestamps, [std::size_t] counts and the
      [unsigned int itemCount] are natural numbers.  The handler only
      compares them and increments [itemCount], which is compared for
      equality with [maxItemsInBulk] before every increment, so no
      wrap-around is reachable.
    - A [Client*] is [option Client]: [None] is [nullptr], [Some c] a pointer
      whose pointee reads as [c].  A [Client**] is [option (option Client)].
    - Every observable action of the handler (server-side log line, status
      written on the session, queue call, call of [processRequest], registry
      lookup, policy verdict, record handed to the file-logging engine) is an
      [Event]; functions return the events they perform, in program order.
    - [DRVLOG] lines are compiled out unless [RESIDUE_DEBUG] is set and are
      not modelled; neither is the [RESIDUE_PROFILING] bookkeeping. *)

From stdpp Require Import base option list gmap strings.

Local Open Scope string_scope.
Local Open Scope nat_scope.
Local Open Scope list_scope.

(** ** include/log.h *)

Definition RESIDUE_LOGGER_ID : string := "residue".

Definition RV_ERROR : nat := 3.

(** Severity of a line written with [RLOG] (a level) or [RVLOG] (a verbose
    level) on the server's own logger. *)
Inductive Level :=
| ERROR
| WARNING
| INFO
| DEBUG
| VERBOSE (vLevel : nat).

(** ** Status codes *)

Module Request.
Inductive StatusCode := CONTINUE | BAD_REQUEST.

#[global] Instance StatusCode_eq_dec : EqDecision StatusCode.
Proof. solve_decision. Defined.
End Request.

Module Response.
Inductive StatusCode := STATUS_OK | BAD_REQUEST | CONTINUE.
End Response.

(** ** Configuration *)

Inductive Flag :=
| ALLOW_PLAIN_LOG_REQUEST
| ALLOW_BULK_LOG_REQUEST
| ALLOW_UNKNOWN_LOGGERS
| COMPRESSION.

#[global] Instance Flag_eq_dec : EqDecision Flag.
Proof. solve_decision. Defined.

(** Modelled from the spec: the policy attached to a known logger
    ([src/core/configuration.h] is missing).  "Known loggers: map of logger
    id -> policy (token requirement, per-logger flag overrides, user
    identity)". *)
Record LoggerPolicy := {
  requiresToken : bool;
  loggerFlags : list Flag;
  loggerUser : string
}.

(** Modelled from the spec: class [Configuration]
    ([src/core/configuration.h] is missing): the server flags, the known
    loggers, the blacklist ("set of logger ids"), [maxItemsInBulk] ("integer
    cap per bulk") and [dispatchDelay] ("per-item sleep in ms"). *)
Record Configuration := {
  flags : list Flag;
  knownLoggers : gmap string LoggerPolicy;
  blacklist : gset string;
  maxItemsInBulk : nat;
  dispatchDelay : nat
}.

Definition hasFlag (conf : Configuration) (f : Flag) : bool :=
  bool_decide (f ∈ flags conf).

Definition isKnownLogger (conf : Configuration) (loggerId : string) : bool :=
  bool_decide (is_Some (knownLoggers conf !! loggerId)).

Definition hasLoggerFlag (conf : Configuration) (loggerId : string) (f : Flag) : bool :=
  match knownLoggers conf !! loggerId with
  | Some p => bool_decide (f ∈ loggerFlags p)
  | None => false
  end.

Definition isBlacklisted (conf : Configuration) (loggerId : string) : bool :=
  bool_decide (loggerId ∈ blacklist conf).

(** "the logger is configured as not requiring tokens". *)
Definition tokenNotRequired (conf : Configuration) (loggerId : string) : bool :=
  match knownLoggers conf !! loggerId with
  | Some p => negb (requiresToken p)
  | None => false
  end.

(** ** Clients, tokens and the registry *)

(** Modelled from the spec: class [Client] ([src/core/client.h] is missing).
    "unique id, ..., dateCreated, age (seconds until expiry).  Derived:
    isAlive(now) == dateCreated + age > now". *)
Record Client := {
  id : string;
  dateCreated : nat;
  age : nat;
  isKnown : bool
}.

Definition isAlive (c : Client) (compareTo : nat) : bool :=
  compareTo <? dateCreated c + age c.

(** Modelled from the spec: a token and the token store (their classes are
    missing from src/).  "isValid(now) == issuedAt + lifeSeconds > now";
    "a token of lifeSeconds == 0 means non-expiring"; the store keeps at most
    one entry per (client, logger) pair. *)
Record Token := {
  value : string;
  issuedAt : nat;
  lifeSeconds : nat
}.

Definition tokenAlive (t : Token) (now : nat) : bool :=
  (lifeSeconds t =? 0) || (now <? issuedAt t + lifeSeconds t).

(** Modelled from the spec: class [Registry] ([src/core/registry.h] is
    missing) as the handler reads it: the client map ("in-memory map
    clientId -> Client"), the token store, and the integrity task, present
    or not, with its [lastExecution]. *)
Record Registry := {
  clients : gmap string Client;
  tokenStore : gmap (string * string) Token;
  clientIntegrityTask : option nat
}.

Definition findClient (reg : Registry) (clientId : string) : option Client :=
  clients reg !! clientId.

(** Modelled from the spec: [validate(clientId, loggerId, tokenValue, now)]
    "returns true iff the stored entry matches ... and is alive at now". *)
Definition validate (reg : Registry) (clientId loggerId tokenValue : string)
    (now : nat) : bool :=
  match tokenStore reg !! (clientId, loggerId) with
  | Some t => bool_decide (value t = tokenValue) && tokenAlive t now
  | None => false
  end.

(** Modelled from the spec: [Client::isValidToken] ([src/core/client.cc] is
    missing).  "tokenStore.validate(clientId, loggerId, req.token,
    req.dateReceived) - unless the logger is configured as not requiring
    tokens". *)
Definition isValidToken (conf : Configuration) (c : Client)
    (loggerId token : string) (reg : Registry) (compareTo : nat) : bool :=
  tokenNotRequired conf loggerId || validate reg (id c) loggerId token compareTo.

(** What the handler observes of the rest of the server at one point of its
    run: the registry as the connection handlers and the integrity task left
    it, and the wall clock [Utils::now()]. *)
Record World := {
  registry : Registry;
  clock : nat
}.

(** ** Log requests *)

(** Modelled from the spec: class [LogRequest]
    ([src/logging/log-request.h] is missing), with the fields of section 3
    that the handler reads or writes, the attached client, and the outcome of
    decoding ([isValid], [isBulk], [statusCode], [errorText]).  The fields
    that only the file-logging engine formats (level, file, line, function,
    thread, datetime) travel with [msg]. *)
Record LogRequest := {
  loggerId : string;
  token : string;
  clientId : string;
  client : option Client;
  msg : string;
  ipAddr : string;
  dateReceived : nat;
  isValid : bool;
  isBulk : bool;
  statusCode : Request.StatusCode;
  errorText : string
}.

Definition setClientId (r : LogRequest) (v : string) : LogRequest :=
  {| loggerId := loggerId r; token := token r; clientId := v;
     client := client r; msg := msg r; ipAddr := ipAddr r;
     dateReceived := dateReceived r; isValid := isValid r;
     isBulk := isBulk r; statusCode := statusCode r;
     errorText := errorText r |}.

Definition setClient (r : LogRequest) (v : option Client) : LogRequest :=
  {| loggerId := loggerId r; token := token r; clientId := clientId r;
     client := v; msg := msg r; ipAddr := ipAddr r;
     dateReceived := dateReceived r; isValid := isValid r;
     isBulk := isBulk r; statusCode := statusCode r;
     errorText := errorText r |}.

Definition setIpAddr (r : LogRequest) (v : string) : LogRequest :=
  {| loggerId := loggerId r; token := token r; clientId := clientId r;
     client := client r; msg := msg r; ipAddr := v;
     dateReceived := dateReceived r; isValid := isValid r;
     isBulk := isBulk r; statusCode := statusCode r;
     errorText := errorText r |}.

Definition setDateReceived (r : LogRequest) (v : nat) : LogRequest :=
  {| loggerId := loggerId r; token := token r; clientId := clientId r;
     client := client r; msg := msg r; ipAddr := ipAddr r;
     dateReceived := v; isValid := isValid r;
     isBulk := isBulk r; statusCode := statusCode r;
     errorText := errorText r |}.

(** ** Events *)

Inductive Event :=
| EvLog (lvl : Level) (text : string)
    (* a line on the server's own logger *)
| EvWriteStatusCode (code : Response.StatusCode)
    (* m_session->writeStatusCode *)
| EvQueuePush
| EvQueueSize (n : nat)
| EvQueuePull
| EvQueueSwitchContext
| EvSleep (ms : nat)
| EvHandleRaw
    (* RequestHandler::handle: the raw frame is decrypted and parsed *)
| EvProcessRequest (request : LogRequest) (bypassChecks : bool)
    (* entry of processRequest *)
| EvFindClient (clientId : string) (found : option Client)
    (* m_registry->findClient *)
| EvUpdateUnknownLoggerUser (loggerId : string) (request : LogRequest)
| EvIsRequestAllowed (request : LogRequest) (allowed : bool)
    (* isRequestAllowed was called and returned [allowed] *)
| EvDispatch (request : LogRequest)
    (* the record is written through the file-logging engine *).

Definition isDispatch (e : Event) : option LogRequest :=
  match e with
  | EvDispatch r => Some r
  | _ => None
  end.

(** The records that reached the file-logging engine, oldest first. *)
Definition dispatched (tr : list Event) : list LogRequest :=
  omap isDispatch tr.

(** ** The request queue *)

(** Modelled from the spec: the dual-buffer queue behind [m_queue] (its class
    is missing from src/).  "Two fixed-identity buffers plus a boolean
    activeIdx"; [push] appends to the buffer [activeIdx] selects; [pull]
    "removes head of the drain buffer (the non-active one ...)";
    [switchContext] "flips activeIdx".  [size] is read on the buffer [pull]
    reads: a drain round is "one pass of the dispatcher through whatever
    items were in the active queue at the start of the pass", it takes
    [total = size()] items with [pull], and the buffer that is filled in the
    mean time is the one the handler calls the backlog
    ([m_queue.backlogSize()], "items have been added to this queue in the
    mean time").  The producer lock is not modelled: the embedding is
    sequential. *)
Module RequestQueue.

Record t (A : Type) := mk {
  buf0 : list A;
  buf1 : list A;
  activeIdx : bool
}.
Arguments mk {A}.
Arguments buf0 {A}.
Arguments buf1 {A}.
Arguments activeIdx {A}.

Section Ops.
Context {A : Type}.

Definition empty : t A := mk [] [] false.

(** The buffer producers fill. *)
Definition backlog (q : t A) : list A :=
  if activeIdx q then buf1 q else buf0 q.

(** The buffer the dispatcher drains. *)
Definition drain (q : t A) : list A :=
  if activeIdx q then buf0 q else buf1 q.

Definition push (x : A) (q : t A) : t A :=
  if activeIdx q
  then mk (buf0 q) (buf1 q ++ [x]) true
  else mk (buf0 q ++ [x]) (buf1 q) false.

Definition size (q : t A) : nat := length (drain q).

Definition backlogSize (q : t A) : nat := length (backlog q).

Definition pull (q : t A) : option (A * t A) :=
  match drain q with
  | [] => None
  | x :: rest =>
      Some (x, if activeIdx q
               then mk rest (buf1 q) true
               else mk (buf0 q) rest false)
  end.

Definition switchContext (q : t A) : t A :=
  mk (buf0 q) (buf1 q) (negb (activeIdx q)).

End Ops.

End RequestQueue.

(** ** LogRequestHandler *)

Section LogRequestHandler.

(** [m_registry->configuration()]. *)
Variable conf : Configuration.

(** *** isRequestAllowed *)

Definition isRequestAllowed (w : World) (request : LogRequest) : bool * list Event :=
  match client request with
  | None => (false, [EvLog DEBUG "Client may have expired"])
  | Some c =>
      (* Ensure flag is on *)
      let allowed := hasFlag conf ALLOW_UNKNOWN_LOGGERS in
      let allowed :=
        if negb allowed then isKnownLogger conf (loggerId request) else allowed in
      let allowed :=
        if allowed
        then bool_decide (loggerId request ≠ RESIDUE_LOGGER_ID)
        else allowed in
      let allowed :=
        if allowed
        then negb (isBlacklisted conf (loggerId request))
        else allowed in
      if allowed then
        let allowed :=
          isValidToken conf c (loggerId request) (token request)
                       (registry w) (dateReceived request) in
        (allowed, if negb allowed then [EvLog WARNING "Token expired"] else [])
      else (allowed, [])
  end.

(** *** dispatch *)

(** The custom format specifiers [%client_id] and [%ip] are installed
    around the write and read the request set on the user log builder; the
    record that reaches the engine is the request itself. *)
Definition dispatch (request : LogRequest) : list Event :=
  [EvDispatch request].

(** *** processRequest *)

Record ProcessResult := {
  accepted : bool;                  (* the value returned *)
  clientRefOut : option Client;     (* *clientRef on return, when clientRef is not null *)
  requestOut : LogRequest;          (* *request on return *)
  emitted : list Event
}.

(** [clientRef != nullptr && *clientRef != nullptr ? *clientRef : nullptr] *)
Definition retained (clientRef : option (option Client)) : option Client :=
  match clientRef with
  | Some (Some c) => Some c
  | _ => None
  end.

Definition bypassChecksOf (clientRef : option (option Client)) (forceCheck : bool) : bool :=
  negb forceCheck && bool_decide (is_Some (retained clientRef)).

(** The condition under which a request that carries no client is looked
    up by the [client_id] of its payload. *)
Definition plainLookup (request : LogRequest) : bool :=
  hasFlag conf ALLOW_PLAIN_LOG_REQUEST
  && (hasLoggerFlag conf (loggerId request) ALLOW_PLAIN_LOG_REQUEST
      || (negb (isKnownLogger conf (loggerId request))
          && hasFlag conf ALLOW_UNKNOWN_LOGGERS))
  && negb (bool_decide (clientId request = "")).

(** Lines 207-222: the client the request is processed for. *)
Definition resolveClient (w : World) (request : LogRequest)
    (clientRef : option (option Client)) : option Client * list Event :=
  match retained clientRef with
  | Some c => (Some c, [])
  | None =>
      match client request with
      | Some c => (Some c, [])
      | None =>
          if plainLookup request then
            (* Try to find client assuming plain JSON request *)
            let found := findClient (registry w) (clientId request) in
            (found, [EvFindClient (clientId request) found])
          else if bool_decide (clientId request = "") then
            (None, [EvLog (VERBOSE RV_ERROR) "Invalid request. No client ID found"])
          else (None, [])
      end
  end.

Definition processRequest (w : World) (request : LogRequest)
    (clientRef : option (option Client)) (forceCheck : bool) : ProcessResult :=
  let bypassChecks := bypassChecksOf clientRef forceCheck in
  let enter := [EvProcessRequest request bypassChecks] in
  let '(client, ev1) := resolveClient w request clientRef in
  match client with
  | None =>
      {| accepted := false; clientRefOut := client; requestOut := request;
         emitted :=
           enter ++ ev1
           ++ [EvLog (VERBOSE RV_ERROR) "Invalid request. No client found"]
           ++ (if hasFlag conf ALLOW_PLAIN_LOG_REQUEST
               then [EvLog (VERBOSE RV_ERROR)
                       "Check if logger has ALLOW_PLAIN_LOG_REQUEST option set and it contains client ID if needed."]
               else []) |}
  | Some c =>
      if negb bypassChecks && negb (isAlive c (dateReceived request)) then
        {| accepted := false; clientRefOut := client; requestOut := request;
           emitted :=
             enter ++ ev1
             ++ [EvLog ERROR "Invalid request. Client is dead";
                 EvLog DEBUG "Req received: "] |}
      else
        let request := setClient (setClientId request (id c)) (Some c) in
        let ev2 :=
          if negb bypassChecks && isKnown c
             && hasFlag conf ALLOW_UNKNOWN_LOGGERS
             && negb (isKnownLogger conf (loggerId request))
          then [EvUpdateUnknownLoggerUser (loggerId request) request]
          else [] in
        if isValid request then
          if negb bypassChecks then
            let '(allowed, ev3) := isRequestAllowed w request in
            if negb allowed then
              {| accepted := false; clientRefOut := client; requestOut := request;
                 emitted :=
                   enter ++ ev1 ++ ev2 ++ ev3
                   ++ [EvIsRequestAllowed request false;
                       EvLog WARNING "Ignoring log from unauthorized logger"] |}
            else
              {| accepted := true; clientRefOut := client; requestOut := request;
                 emitted :=
                   enter ++ ev1 ++ ev2 ++ ev3
                   ++ [EvIsRequestAllowed request true] ++ dispatch request |}
          else
            {| accepted := true; clientRefOut := client; requestOut := request;
               emitted := enter ++ ev1 ++ ev2 ++ dispatch request |}
        else
          {| accepted := false; clientRefOut := client; requestOut := request;
             emitted := enter ++ ev1 ++ ev2 |}
  end.

(** *** processRequestQueue: the items of a bulk *)

(** The elements of the JSON array of a bulk, and
    [LogRequest::deserialize] applied to the dump of one element
    ([src/logging/log-request.cc] is missing). *)
Context {Json : Type}.
Variable deserialize : Json -> LogRequest.

(** The world the dispatch thread observes at each of its observation
    points, numbered from the start of the run: one per drained frame and
    one per element of a bulk.  The connection handlers and the integrity
    task run between two observations. *)
Variable env : nat -> World.

(** The locals of lines 120-126. *)
Record BulkState := {
  itemCount : nat;
  lastClientValidation : nat;
  currentClient : option Client;
  lastKnownClientId : string;
  forceClientValidation : bool
}.

(** Lines 138-140. *)
Definition integrityTaskRan (w : World) (bs : BulkState) : bool :=
  negb (forceClientValidation bs)
  && match clientIntegrityTask (registry w) with
     | Some lastExecution => lastClientValidation bs <=? lastExecution
     | None => false
     end.

(** Lines 138-150. *)
Definition revalidate (w : World) (bs : BulkState) (requestItem : LogRequest)
    : BulkState * LogRequest * list Event :=
  if integrityTaskRan w bs then
    ({| itemCount := itemCount bs;
        lastClientValidation := clock w;
        currentClient := None;
        lastKnownClientId := lastKnownClientId bs;
        forceClientValidation := true |},
     setClientId (setClient requestItem None) (lastKnownClientId bs),
     [EvLog INFO "Re-forcing client validation after client integrity task execution";
      EvLog DEBUG "[client: "])
  else (bs, requestItem, []).

(** Lines 151-158. *)
Definition processItem (w : World) (bs : BulkState) (requestItem : LogRequest)
    : BulkState * list Event :=
  let r := processRequest w requestItem (Some (currentClient bs))
                          (forceClientValidation bs) in
  if accepted r then
    ({| itemCount := S (itemCount bs);
        lastClientValidation := lastClientValidation bs;
        currentClient := clientRefOut r;
        lastKnownClientId :=
          match clientRefOut r with Some c => id c | None => "" end;
        forceClientValidation := false |},
     emitted r)
  else
    (* force next client validation if process is unsuccessful *)
    ({| itemCount := S (itemCount bs);
        lastClientValidation := lastClientValidation bs;
        currentClient := clientRefOut r;
        lastKnownClientId := lastKnownClientId bs;
        forceClientValidation := true |},
     emitted r).

(** Lines 132-164: the body of the loop for one array element. *)
Definition bulkItem (w : World) (request : LogRequest) (bs : BulkState)
    (it : Json) : BulkState * list Event :=
  let requestItem := deserialize it in
  if isValid requestItem then
    let requestItem := setIpAddr requestItem (ipAddr request) in
    let requestItem := setDateReceived requestItem (dateReceived request) in
    let '(bs, requestItem, ev1) := revalidate w bs requestItem in
    let '(bs, ev2) := processItem w bs requestItem in
    (bs, ev1 ++ ev2)
  else (bs, [EvLog ERROR "Invalid request in bulk."]).

Definition bulkOverflow : Event :=
  EvLog ERROR "Maximum number of bulk requests reached. Ignoring the rest of items in bulk".

(** Lines 127-165: [for (auto it = j.begin(); it != j.end(); ++it)]. *)
Fixpoint bulkLoop (tick : nat) (request : LogRequest) (bs : BulkState)
    (j : list Json) : BulkState * list Event :=
  match j with
  | [] => (bs, [])
  | it :: rest =>
      if itemCount bs =? maxItemsInBulk conf then (bs, [bulkOverflow])
      else
        let '(bs, ev) := bulkItem (env tick) request bs it in
        let '(bs, evs) := bulkLoop (S tick) request bs rest in
        (bs, ev ++ evs)
  end.

(** Lines 120-126. *)
Definition bulkStart (w : World) (request : LogRequest) : BulkState :=
  {| itemCount := 0;
     lastClientValidation := clock w;
     currentClient := client request;
     lastKnownClientId := clientId request;
     forceClientValidation := true |}.

(** *** processRequestQueue and handle *)

(** A raw frame, and [RequestHandler::handle(rawRequest, &request,
    defaultStatus, false, false, decompress)] of the base class
    ([src/core/request-handler.cc] is missing): it decrypts and parses the
    frame into [request]; the second component is
    [request.jsonObject().root()] as the list of its elements. *)
Context {RawRequest : Type}.
Variable RequestHandler_handle :
  World -> RawRequest -> Request.StatusCode -> bool -> LogRequest * list Json.

(** The state of the handler: its queue, the number of observations of the
    world made so far, and everything it has done. *)
Record Handler := {
  m_queue : RequestQueue.t RawRequest;
  tick : nat;
  trace : list Event
}.

Definition emit (evs : list Event) (h : Handler) : Handler :=
  {| m_queue := m_queue h; tick := tick h; trace := trace h ++ evs |}.

(** Lines 111-112: the request could not be built from the frame. *)
Definition buildFailed (request : LogRequest) : bool :=
  (negb (isValid request) && negb (isBulk request))
  || bool_decide (statusCode request ≠ Request.CONTINUE).

(** The default status handed to the decoder (lines 108-109). *)
Definition defaultStatus (allowPlainRequest : bool) : Request.StatusCode :=
  if allowPlainRequest then Request.CONTINUE else Request.BAD_REQUEST.

(** The events of the optional sleep (lines 97-100). *)
Definition sleepEvents : list Event :=
  if 0 <? dispatchDelay conf then [EvSleep (dispatchDelay conf)] else [].

(** A frame from which a request is built, whatever the moment it is
    drained at. *)
Definition builds (allowPlainRequest compressionEnabled : bool)
    (rawRequest : RawRequest) : Prop :=
  ∀ w, buildFailed (RequestHandler_handle w rawRequest
                      (defaultStatus allowPlainRequest) compressionEnabled).1
       = false.

(** How an iteration of the loop of [processRequestQueue] ends. *)
Inductive Flow :=
| Next      (* the end of the body is reached: ++i *)
| Return    (* return; *).

(** Lines 97-183: the body of [for (i = 0; i < total; ++i)].  [pull] is
    only called while items counted by [size()] remain; on an empty buffer
    the model leaves the round. *)
Definition processRawRequest (allowPlainRequest compressionEnabled : bool)
    (h : Handler) : Handler * Flow :=
  let h := if 0 <? dispatchDelay conf
           then emit [EvSleep (dispatchDelay conf)] h else h in
  match RequestQueue.pull (m_queue h) with
  | None => (h, Return)
  | Some (rawRequest, q) =>
      let w := env (tick h) in
      let '(request, j) :=
        RequestHandler_handle w rawRequest (defaultStatus allowPlainRequest)
                              compressionEnabled in
      let h := {| m_queue := q; tick := S (tick h);
                  trace := trace h ++ [EvQueuePull; EvHandleRaw] |} in
      if buildFailed request then
        (emit [EvLog (VERBOSE RV_ERROR) "Failed: "] h, Return)
      else if isBulk request then
        if hasFlag conf ALLOW_BULK_LOG_REQUEST then
          (* Create bulk request items *)
          let '(_, ev) := bulkLoop (tick h) request (bulkStart w request) j in
          ({| m_queue := q; tick := tick h + length j; trace := trace h ++ ev |},
           Next)
        else (emit [EvLog ERROR "Bulk requests are not allowed"] h, Next)
      else
        let request :=
          match client request with
          | Some c => setClientId request (id c)
          | None => request
          end in
        (emit (emitted (processRequest w request None true)) h, Next)
  end.

(** The loop, [total] iterations unless one of them returns. *)
Fixpoint drainLoop (allowPlainRequest compressionEnabled : bool) (total : nat)
    (h : Handler) : Handler * Flow :=
  match total with
  | 0 => (h, Next)
  | S total' =>
      match processRawRequest allowPlainRequest compressionEnabled h with
      | (h, Next) => drainLoop allowPlainRequest compressionEnabled total' h
      | (h, Return) => (h, Return)
      end
  end.

Definition processRequestQueue (h : Handler) : Handler :=
  let allowPlainRequest := hasFlag conf ALLOW_PLAIN_LOG_REQUEST in
  let compressionEnabled := hasFlag conf COMPRESSION in
  let total := RequestQueue.size (m_queue h) in
  let h := emit [EvQueueSize total] h in
  match drainLoop allowPlainRequest compressionEnabled total h with
  | (h, Next) =>
      {| m_queue := RequestQueue.switchContext (m_queue h);
         tick := tick h;
         trace := trace h ++ [EvQueueSwitchContext] |}
  | (h, Return) => h
  end.

(** [handle]: the status code is written on the session, then the raw
    request is pushed under the queue's lock. *)
Definition handle (h : Handler) (rawRequest : RawRequest) : Handler :=
  let h := emit [EvWriteStatusCode Response.STATUS_OK] h in
  {| m_queue := RequestQueue.push rawRequest (m_queue h);
     tick := tick h;
     trace := trace h ++ [EvQueuePush] |}.

End LogRequestHandler.

Arguments bulkLoop conf {Json} deserialize env tick request bs j.
Arguments bulkItem conf {Json} deserialize w request bs it.
Arguments processRawRequest conf {Json} deserialize env {RawRequest}
  RequestHandler_handle allowPlainRequest compressionEnabled h.
Arguments drainLoop conf {Json} deserialize env {RawRequest}
  RequestHandler_handle allowPlainRequest compressionEnabled total h.
Arguments processRequestQueue conf {Json} deserialize env {RawRequest}
  RequestHandler_handle h.

(** The requests that entered [processRequest], oldest first. *)
Definition isProcessRequest (e : Event) : option LogRequest :=
  match e with
  | EvProcessRequest r _ => Some r
  | _ => None
  end.

Definition processed (tr : list Event) : list LogRequest :=
  omap isProcessRequest tr.

(** The status codes written on the session, oldest first. *)
Definition isWriteStatusCode (e : Event) : option Response.StatusCode :=
  match e with
  | EvWriteStatusCode c => Some c
  | _ => None
  end.

Definition statusWritten (tr : list Event) : list Response.StatusCode :=
  omap isWriteStatusCode tr.

(** The calls made on the queue, oldest first. *)
Definition isQueueCall (e : Event) : bool :=
  match e with
  | EvQueuePush | EvQueueSize _ | EvQueuePull | EvQueueSwitchContext => true
  | _ => false
  end.

Definition queueCalls (tr : list Event) : list Event :=
  List.filter isQueueCall tr.

(** The requests handed over by [processRequest], oldest first: to the
    configuration ([updateUnknownLoggerUserFromRequest]), to the policy
    evaluator ([isRequestAllowed]) and to the engine ([dispatch]). *)
Definition isHandedOver (e : Event) : option LogRequest :=
  match e with
  | EvUpdateUnknownLoggerUser _ r => Some r
  | EvIsRequestAllowed r _ => Some r
  | EvDispatch r => Some r
  | _ => None
  end.

Definition handedOver (tr : list Event) : list LogRequest :=
  omap isHandedOver tr.

(** What a bulk element carries of its own: the envelope gives it the
    address and the reception date, the handler the client. *)
Definition payload (r : LogRequest) : string * string * string :=
  (loggerId r, token r, msg r).

(** ** A concrete server *)

(** One known logger, [app], which requires tokens; one client, [c1],
    registered at 1000 for 150 s, holding a token for [app] issued at 1050
    for 300 s; bulks of at most two items.  Frames are given decoded. *)
Module Scenario.

Definition c1 : Client :=
  {| id := "c1"; dateCreated := 1000; age := 150; isKnown := true |}.

Definition conf : Configuration :=
  {| flags := [ALLOW_BULK_LOG_REQUEST];
     knownLoggers :=
       {[ "app" := {| requiresToken := true; loggerFlags := [];
                      loggerUser := "" |} ]};
     blacklist := ∅;
     maxItemsInBulk := 2;
     dispatchDelay := 0 |}.

Definition reg : Registry :=
  {| clients := {[ "c1" := c1 ]};
     tokenStore :=
       {[ ("c1", "app") :=
            {| value := "T"; issuedAt := 1050; lifeSeconds := 300 |} ]};
     clientIntegrityTask := Some 900 |}.

Definition world : World := {| registry := reg; clock := 1100 |}.

Definition env (n : nat) : World := world.

(** The integrity task has run at 1200 and evicted [c1], whose age had
    elapsed at 1150. *)
Definition regSwept : Registry :=
  {| clients := ∅;
     tokenStore := tokenStore reg;
     clientIntegrityTask := Some 1200 |}.

Definition worldSwept : World := {| registry := regSwept; clock := 1201 |}.

(** The sweep happens after the second observation of the dispatcher. *)
Definition envSwept (n : nat) : World :=
  if n <? 2 then world else worldSwept.

Definition record (logger tok : string) (c : option Client) (text : string)
    : LogRequest :=
  {| loggerId := logger; token := tok; clientId := "c1"; client := c;
     msg := text; ipAddr := "10.0.0.1"; dateReceived := 1100;
     isValid := true; isBulk := false; statusCode := Request.CONTINUE;
     errorText := "" |}.

Definition item (logger tok text : string) : LogRequest :=
  {| loggerId := logger; token := tok; clientId := ""; client := None;
     msg := text; ipAddr := ""; dateReceived := 0;
     isValid := true; isBulk := false; statusCode := Request.CONTINUE;
     errorText := "" |}.

Definition invalidItem : LogRequest :=
  {| loggerId := ""; token := ""; clientId := ""; client := None;
     msg := ""; ipAddr := ""; dateReceived := 0;
     isValid := false; isBulk := false; statusCode := Request.CONTINUE;
     errorText := "" |}.

(** The envelope of a bulk sent by [c1]. *)
Definition envelope : LogRequest :=
  {| loggerId := ""; token := ""; clientId := "c1"; client := Some c1;
     msg := ""; ipAddr := "10.0.0.1"; dateReceived := 1100;
     isValid := false; isBulk := true; statusCode := Request.CONTINUE;
     errorText := "" |}.

(** A frame that cannot be decrypted. *)
Definition garbled : LogRequest :=
  {| loggerId := ""; token := ""; clientId := ""; client := None;
     msg := ""; ipAddr := "10.0.0.9"; dateReceived := 1100;
     isValid := false; isBulk := false; statusCode := Request.BAD_REQUEST;
     errorText := "decrypt" |}.

(** The record of scenario 1. *)
Definition hello : LogRequest := record "app" "T" (Some c1) "hello".

(** The locals of the bulk loop after a first item: processed successfully
    ([afterAccepted]), or rejected by the policy once its client was resolved
    ([afterRejected]). *)
Definition afterAccepted : BulkState :=
  {| itemCount := 1; lastClientValidation := 1100; currentClient := Some c1;
     lastKnownClientId := "c1"; forceClientValidation := false |}.


Definition Frame : Type := LogRequest * list LogRequest.

Definition decode (w : World) (raw : Frame) (defaultStatus : Request.StatusCode)
    (decompress : bool) : LogRequest * list LogRequest := raw.

Definition deserialize (j : LogRequest) : LogRequest := j.

Definition single (r : LogRequest) : Frame := (r, []).

Definition bulk (items : list LogRequest) : Frame := (envelope, items).

(** A handler whose dispatch buffer holds [frames]. *)
Definition holding (frames : list Frame) : Handler :=
  {| m_queue := RequestQueue.mk [] frames false; tick := 0; trace := [] |}.

Definition round (e : nat -> World) (frames : list Frame) : Handler :=
  processRequestQueue conf deserialize e decode (holding frames).

End Scenario.

(** ** The outcomes of processRequest *)

(** Lines 242-243: the request once the client [c] is attached to it. *)
Definition attach (request : LogRequest) (c : Client) : LogRequest :=
  setClient (setClientId request (id c)) (Some c).

(** The three ways [processRequest] ends, read off its result: the request
    is rejected; it is dispatched after the checks; it is dispatched for the
    retained client without any check. *)
Inductive Outcome (conf : Configuration) (w : World) (request : LogRequest)
    (clientRef : option (option Client)) (forceCheck : bool)
    : ProcessResult → Prop :=
| rejected (byp : bool) (cl : option Client) (out : LogRequest)
    (ev1 ev : list Event) :
    bypassChecksOf clientRef forceCheck = byp →
    resolveClient conf w request clientRef = (cl, ev1) →
    dispatched ev = [] →
    processed ev = [] →
    statusWritten ev = [] →
    (∀ r b, EvIsRequestAllowed r b ∈ ev →
            b = false ∧ ∃ c, cl = Some c ∧ r = attach request c) →
    Outcome conf w request clientRef forceCheck
      {| accepted := false; clientRefOut := cl; requestOut := out;
         emitted := EvProcessRequest request byp :: ev1 ++ ev |}
| checked (c : Client) (ev1 ev2 ev3 : list Event) :
    bypassChecksOf clientRef forceCheck = false →
    resolveClient conf w request clientRef = (Some c, ev1) →
    isAlive c (dateReceived request) = true →
    isValid request = true →
    isRequestAllowed conf w (attach request c) = (true, ev3) →
    dispatched ev2 = [] →
    processed ev2 = [] →
    statusWritten ev2 = [] →
    (∀ r b, EvIsRequestAllowed r b ∉ ev2) →
    Outcome conf w request clientRef forceCheck
      {| accepted := true; clientRefOut := Some c;
         requestOut := attach request c;
         emitted :=
           EvProcessRequest request false
           :: ev1 ++ ev2 ++ ev3
              ++ [EvIsRequestAllowed (attach request c) true;
                  EvDispatch (attach request c)] |}
| bypassed (c : Client) :
    bypassChecksOf clientRef forceCheck = true →
    retained clientRef = Some c →
    isValid request = true →
    Outcome conf w request clientRef forceCheck
      {| accepted := true; clientRefOut := Some c;
         requestOut := attach request c;
         emitted := [EvProcessRequest request true;
                     EvDispatch (attach request c)] |}.

(** Every record that reached the engine in [evs] is a request that entered
    [processRequest] with a client attached to it, and either the call
    performed the checks and the policy evaluator allowed the record in a
    world the dispatcher observed, or the call was made for a retained client
    without forced validation. *)
Definition Accounted (conf : Configuration) (env : nat → World)
    (evs : list Event) : Prop :=
  ∀ r, EvDispatch r ∈ evs →
    ∃ request c,
      r = attach request c
      ∧ ((EvProcessRequest request false ∈ evs
          ∧ EvIsRequestAllowed r true ∈ evs
          ∧ ∃ n, (isRequestAllowed conf (env n) r).1 = true)
         ∨ EvProcessRequest request true ∈ evs).

(** What the resolution of the client may emit: a lookup or a log line. *)
Inductive ResolveEvents : list Event → Prop :=
| resolve_quiet : ResolveEvents []
| resolve_lookup cid found : ResolveEvents [EvFindClient cid found]
| resolve_log lvl text : ResolveEvents [EvLog lvl text].

(** What a step of the handler that only logs may emit. *)
Inductive LogEvents : list Event → Prop :=
| log_nil : LogEvents []
| log_cons lvl text evs : LogEvents evs → LogEvents (EvLog lvl text :: evs).

(** The elements of a bulk that deserialize to a valid request, in array
    order. *)
Definition validItems {Json : Type} (deserialize : Json → LogRequest)
    (j : list Json) : list LogRequest :=
  List.filter isValid (deserialize <$> j).

(** ** src/utils/utils.h: the inline string helpers *)

(** A [std::string] is a [string], [std::string::npos] is [None].
    [::toupper] and [::tolower] are those of the "C" locale, which change
    the 26 letters of the other case and nothing else. *)
Module Utils.

(** [c] occurs in [set]. *)
Definition contains (set : string) (c : Ascii.ascii) : bool :=
  existsb (Ascii.eqb c) (String.list_ascii_of_string set).

(** [str.find_first_not_of(set)], counting positions from [pos]. *)
Fixpoint find_first_not_of_from (pos : nat) (str set : string) : option nat :=
  match str with
  | String.EmptyString => None
  | String.String c rest =>
      if contains set c then find_first_not_of_from (S pos) rest set
      else Some pos
  end.

Definition find_first_not_of (str set : string) : option nat :=
  find_first_not_of_from 0 str set.

Definition isAlphaNumeric (str exceptions : string) : bool :=
  bool_decide
    (find_first_not_of str
       ("abcdefghijklmnopqrstuvwxyzABCDEFGHIJKLMNOPQRSTUVWXYZ0123456789"
        +:+ exceptions)
     = None).

(** [str.compare(pos, len, other) == 0]. *)
Definition compare_is_0 (str : string) (pos len : nat) (other : string) : bool :=
  match String.compare (String.substring pos len str) other with
  | Eq => true
  | _ => false
  end.

Definition startsWith (str start : string) : bool :=
  (String.length start <=? String.length str)
  && compare_is_0 str 0 (String.length start) start.

Definition endsWith (str end_ : string) : bool :=
  (String.length end_ <=? String.length str)
  && compare_is_0 str (String.length str - String.length end_)
                  (String.length end_) end_.

Definition toupper (c : Ascii.ascii) : Ascii.ascii :=
  let n := Ascii.nat_of_ascii c in
  if (97 <=? n) && (n <=? 122) then Ascii.ascii_of_nat (n - 32) else c.

Definition tolower (c : Ascii.ascii) : Ascii.ascii :=
  let n := Ascii.nat_of_ascii c in
  if (65 <=? n) && (n <=? 90) then Ascii.ascii_of_nat (n + 32) else c.

(** [std::transform(str.begin(), str.end(), str.begin(), f)]. *)
Fixpoint transform (f : Ascii.ascii → Ascii.ascii) (str : string) : string :=
  match str with
  | String.EmptyString => String.EmptyString
  | String.String c rest => String.String (f c) (transform f rest)
  end.

Definition toUpper (str : string) : string := transform toupper str.

Definition toLower (str : string) : string := transform tolower str.

(** A letter or a digit, by character code. *)
Definition isalnum (c : Ascii.ascii) : bool :=
  let n := Ascii.nat_of_ascii c in
  ((97 <=? n) && (n <=? 122)) || ((65 <=? n) && (n <=? 90))
  || ((48 <=? n) && (n <=? 57)).

End Utils.

(** ** The bulk loop: what it keeps *)

(** Lines 136-137: what an element of a bulk takes from the envelope. *)
Definition inherit (request requestItem : LogRequest) : LogRequest :=
  setDateReceived (setIpAddr requestItem (ipAddr request)) (dateReceived request).

(** Whenever validation is not forced for the next item, a client is
    retained and [lastKnownClientId] is its id. *)
Definition Consistent (bs : BulkState) : Prop :=
  forceClientValidation bs = false →
  ∃ c, currentClient bs = Some c ∧ lastKnownClientId bs = id c.

(** From observation [tick] on, no integrity task has executed at or after
    [since]. *)
Definition taskQuiet (env : nat → World) (tick since : nat) : Prop :=
  ∀ n, tick ≤ n →
    match clientIntegrityTask (registry (env n)) with
    | Some lastExecution => lastExecution < since
    | None => True
    end.

(** ** start: the dispatch thread and the sessions *)

(** What the handler does itself, as opposed to what a call of
    [processRequest] does. *)
Definition isHandlerEvent (e : Event) : bool :=
  match e with
  | EvLog _ _ | EvQueuePush | EvQueueSize _ | EvQueuePull
  | EvQueueSwitchContext | EvSleep _ | EvHandleRaw => true
  | _ => false
  end.

(** Every event of [evs] is the handler's own or comes from a call of
    [processRequest] made in a world the dispatcher observed, either as for
    a non-bulk request ([clientRef] null, validation forced) or with bulk
    requests allowed. *)
Definition FromCalls (conf : Configuration) (env : nat → World)
    (evs : list Event) : Prop :=
  ∀ e, e ∈ evs →
    isHandlerEvent e = true
    ∨ ∃ n request clientRef forceCheck,
        e ∈ emitted (processRequest conf (env n) request clientRef forceCheck)
        ∧ ((clientRef = None ∧ forceCheck = true)
           ∨ hasFlag conf ALLOW_BULK_LOG_REQUEST = true).

Definition isPull (e : Event) : bool :=
  match e with
  | EvQueuePull => true
  | _ => false
  end.

(** The number of frames pulled in [tr]. *)
Definition pulls (tr : list Event) : nat := length (List.filter isPull tr).

(** What happens to the handler: a session hands it a frame, or the
    dispatch thread runs one iteration of its loop. *)
Inductive Action (RawRequest : Type) :=
| Handle (rawRequest : RawRequest)
| Iterate.
Arguments Handle {RawRequest} rawRequest.
Arguments Iterate {RawRequest}.

Definition isHandle {RawRequest : Type} (a : Action RawRequest) : bool :=
  match a with
  | Handle _ => true
  | Iterate => false
  end.

Section Schedule.

Variable conf : Configuration.
Context {Json RawRequest : Type}.
Variable deserialize : Json → LogRequest.
Variable env : nat → World.
Variable RequestHandler_handle :
  World → RawRequest → Request.StatusCode → bool → LogRequest * list Json.

(** [start], the body of the loop of the dispatch thread:
    [processRequestQueue(); sleep_for(100 ms)]. *)
Definition iteration (h : Handler) : Handler :=
  emit [EvSleep 100]
       (processRequestQueue conf deserialize env RequestHandler_handle h).

(** The handler under a sequence of actions of the sessions and of the
    dispatch thread. *)
Fixpoint run (acts : list (Action RawRequest)) (h : Handler) : Handler :=
  match acts with
  | [] => h
  | Handle rawRequest :: rest => run rest (handle h rawRequest)
  | Iterate :: rest => run rest (iteration h)
  end.

End Schedule.

(** ** src/net/http-client.cc: writeCallback *)

(** The write callback handed to libcurl (built with [RESIDUE_HAS_CURL]).
    [std::size_t] is a number below [2^64] and its product wraps around.
    [contents] is the memory at the pointer received; the callback reads
    [size * nmemb] characters of it, which the caller must provide.
    [resizeOk] tells whether [s->resize] succeeds or throws
    [std::bad_alloc], in which case the string is left as it was. *)
Module HttpClient.

Definition mul_size_t (a b : N) : N := ((a * b) mod 2 ^ 64)%N.

Definition writeCallback (resizeOk : bool) (contents : string) (size nmemb : N)
    (s : string) : N * string :=
  let newLength := mul_size_t size nmemb in
  if resizeOk then
    (mul_size_t size nmemb,
     s +:+ String.substring 0 (N.to_nat newLength) contents)
  else (0%N, s).

(** Successive calls of the callback, one per chunk received, each given as
    [(resizeOk, contents, size, nmemb)]: the string after the last call and
    the values returned. *)
Fixpoint writeCallbacks (calls : list (bool * string * N * N)) (s : string)
    : list N * string :=
  match calls with
  | [] => ([], s)
  | (resizeOk, contents, size, nmemb) :: rest =>
      let '(n, s) := writeCallback resizeOk contents size nmemb s in
      let '(ns, s) := writeCallbacks rest s in
      (n :: ns, s)
  end.

(** A call that hands over exactly the characters of [contents], whose
    number fits [std::size_t], and for which memory is available. *)
Definition wellFormed (call : bool * string * N * N) : Prop :=
  let '(resizeOk, contents, size, nmemb) := call in
  resizeOk = true
  ∧ (size * nmemb < 2 ^ 64)%N
  ∧ N.to_nat (size * nmemb) = String.length contents.

Definition contentsOf (call : bool * string * N * N) : string :=
  call.1.1.2.

End HttpClient.

(** ** More of the concrete server *)

Module Cases.

(** The server of [Scenario] with bulk requests not allowed. *)
Definition confNoBulk : Configuration :=
  {| flags := [];
     knownLoggers := knownLoggers Scenario.conf;
     blacklist := ∅;
     maxItemsInBulk := 2;
     dispatchDelay := 0 |}.

(** A plain request that names no client. *)
Definition anonymous : LogRequest := Scenario.item "app" "T" "one".


(** The second item of a bulk of [c1], as it reaches the engine. *)
Definition second : LogRequest :=
  attach (inherit Scenario.envelope (Scenario.item "app" "T" "two")) Scenario.c1.

(** The envelope of a bulk of [c1] received when the age of [c1] has just
    elapsed. *)
Definition lateEnvelope : LogRequest :=
  setDateReceived Scenario.envelope 1150.




(** The first item of a bulk of [c1] as it enters [processRequest]: it
    names no client and carries none. *)
Definition first : LogRequest :=
  inherit Scenario.envelope (Scenario.item "app" "T" "one").

(** The same item when the bulk is received as the age of [c1] has just
    elapsed. *)
Definition lateFirst : LogRequest :=
  inherit lateEnvelope (Scenario.item "app" "T" "one").

(** The server at 1151: the age of [c1] has elapsed and the integrity task
    has not run since, so the registry still holds [c1]. *)
Definition worldLate : World := {| registry := Scenario.reg; clock := 1151 |}.

(** Two chunks of a response. *)
Definition chunks : list (bool * string * N * N) :=
  [(true, "HTTP", 1%N, 4%N); (true, "/1.0 ", 5%N, 1%N)].

End Cases.

(** * Properties *)

(** ** The policy evaluator *)

Section Policy.

Variable conf : Configuration.

Lemma hasFlag_true f : hasFlag conf f = true ↔ f ∈ flags conf.
Proof. unfold hasFlag. apply bool_decide_eq_true. Qed.

Lemma isKnownLogger_true l :
  isKnownLogger conf l = true ↔ is_Some (knownLoggers conf !! l).
Proof. unfold isKnownLogger. apply bool_decide_eq_true. Qed.

Lemma isBlacklisted_false l :
  isBlacklisted conf l = false ↔ l ∉ blacklist conf.
Proof. unfold isBlacklisted. apply bool_decide_eq_false. Qed.

Lemma isValidToken_true c l tok reg now :
  isValidToken conf c l tok reg now = true
  ↔ tokenNotRequired conf l = true ∨ validate reg (id c) l tok now = true.
Proof. unfold isValidToken. apply orb_true_iff. Qed.

(** The verdict as one conjunction, for a request that carries a client. *)
Lemma isRequestAllowed_client w request c :
  client request = Some c →
  (isRequestAllowed conf w request).1 =
    (hasFlag conf ALLOW_UNKNOWN_LOGGERS || isKnownLogger conf (loggerId request))
    && bool_decide (loggerId request ≠ RESIDUE_LOGGER_ID)
    && negb (isBlacklisted conf (loggerId request))
    && isValidToken conf c (loggerId request) (token request)
                    (registry w) (dateReceived request).
Proof.
  intros Hc. unfold isRequestAllowed. rewrite Hc.
  destruct (hasFlag conf ALLOW_UNKNOWN_LOGGERS),
           (isKnownLogger conf (loggerId request)),
           (bool_decide (loggerId request ≠ RESIDUE_LOGGER_ID)),
           (isBlacklisted conf (loggerId request)); reflexivity.
Qed.

(** C2.  For a request with an attached client, [isRequestAllowed] returns
    true exactly when (1) [ALLOW_UNKNOWN_LOGGERS] is set or the logger is
    known, (2) the logger is not ["residue"], (3) the logger is not
    blacklisted, and (4) the logger does not require tokens or the token is
    valid for the client and the logger at the request's [dateReceived]. *)
Theorem isRequestAllowed_iff w request c :
  client request = Some c →
  (isRequestAllowed conf w request).1 = true
  ↔ (ALLOW_UNKNOWN_LOGGERS ∈ flags conf
     ∨ is_Some (knownLoggers conf !! loggerId request))
    ∧ (loggerId request ≠ "residue")
    ∧ (loggerId request ∉ blacklist conf)
    ∧ (tokenNotRequired conf (loggerId request) = true
       ∨ validate (registry w) (id c) (loggerId request) (token request)
                  (dateReceived request) = true).
Proof.
  intros Hc. rewrite (isRequestAllowed_client w request c Hc).
  rewrite !andb_true_iff, orb_true_iff, negb_true_iff.
  rewrite hasFlag_true, isKnownLogger_true, isBlacklisted_false,
          isValidToken_true, bool_decide_eq_true.
  unfold RESIDUE_LOGGER_ID. tauto.
Qed.

(** C9.  A request with no attached client is never allowed, whatever the
    logger, the flags, the blacklist and the token. *)
Theorem isRequestAllowed_no_client w request :
  client request = None →
  (isRequestAllowed conf w request).1 = false.
Proof.
  intros Hc. unfold isRequestAllowed. rewrite Hc. reflexivity.
Qed.

(** The verdict does not read the wall clock. *)
Lemma isRequestAllowed_clock w t request :
  isRequestAllowed conf {| registry := registry w; clock := t |} request
  = isRequestAllowed conf w request.
Proof. reflexivity. Qed.

End Policy.

(** ** Reading traces *)

(** Closes a goal from [H : e ∈ l] when [l] is a literal list none of whose
    elements can be [e]. *)
Ltac not_in_literal H :=
  repeat (apply elem_of_cons in H as [H|H]; [discriminate|]);
  by apply elem_of_nil in H.

(** Splits [H : e ∈ l] along the conses and appends of [l]. *)
Ltac decompose_in H :=
  repeat first
    [apply elem_of_cons in H as [H|H]
    |apply elem_of_app in H as [H|H]
    |apply elem_of_nil in H; destruct H].

(** Proves [e ∈ l] for a literal list [l]. *)
Ltac in_literal :=
  repeat first [apply list_elem_of_here | apply list_elem_of_further].

Lemma dispatched_app (a b : list Event) :
  dispatched (a ++ b) = dispatched a ++ dispatched b.
Proof. apply omap_app. Qed.

Lemma processed_app (a b : list Event) :
  processed (a ++ b) = processed a ++ processed b.
Proof. apply omap_app. Qed.

Lemma statusWritten_app (a b : list Event) :
  statusWritten (a ++ b) = statusWritten a ++ statusWritten b.
Proof. apply omap_app. Qed.

Lemma handedOver_app (a b : list Event) :
  handedOver (a ++ b) = handedOver a ++ handedOver b.
Proof. apply omap_app. Qed.

Lemma elem_of_dispatched (r : LogRequest) (tr : list Event) :
  r ∈ dispatched tr ↔ EvDispatch r ∈ tr.
Proof.
  unfold dispatched. rewrite list_elem_of_omap. split.
  - intros [e [He Hr]]. destruct e; simpl in Hr; try discriminate.
    by inversion Hr; subst.
  - intros He. by exists (EvDispatch r).
Qed.

Lemma LogEvents_elem evs e :
  LogEvents evs → e ∈ evs → ∃ lvl text, e = EvLog lvl text.
Proof.
  induction 1 as [|lvl text evs _ IH]; intros He.
  - by apply elem_of_nil in He.
  - apply elem_of_cons in He as [->|He]; eauto.
Qed.

Lemma LogEvents_quiet evs :
  LogEvents evs →
  dispatched evs = [] ∧ processed evs = [] ∧ statusWritten evs = [].
Proof. induction 1; simpl; auto. Qed.

Lemma LogEvents_handedOver evs : LogEvents evs → handedOver evs = [].
Proof. induction 1; simpl; auto. Qed.

Lemma ResolveEvents_handedOver evs : ResolveEvents evs → handedOver evs = [].
Proof. destruct 1; simpl; auto. Qed.

Lemma queueCalls_app (a b : list Event) :
  queueCalls (a ++ b) = queueCalls a ++ queueCalls b.
Proof. apply List.filter_app. Qed.

Lemma LogEvents_queueCalls evs : LogEvents evs → queueCalls evs = [].
Proof. induction 1; simpl; auto. Qed.

Lemma ResolveEvents_quiet evs :
  ResolveEvents evs →
  dispatched evs = [] ∧ processed evs = [] ∧ statusWritten evs = [].
Proof. destruct 1; simpl; auto. Qed.

Lemma Accounted_app conf env a b :
  Accounted conf env a → Accounted conf env b → Accounted conf env (a ++ b).
Proof.
  intros Ha Hb r [Hin|Hin]%elem_of_app.
  - destruct (Ha r Hin) as (request & c & -> & H). exists request, c.
    split; [done|]. rewrite !elem_of_app. tauto.
  - destruct (Hb r Hin) as (request & c & -> & H). exists request, c.
    split; [done|]. rewrite !elem_of_app. tauto.
Qed.

Lemma Accounted_quiet conf env evs :
  dispatched evs = [] → Accounted conf env evs.
Proof.
  intros Hd r Hin%elem_of_dispatched. rewrite Hd in Hin.
  by apply elem_of_nil in Hin.
Qed.

(** ** processRequest *)

Section ProcessRequest.

Variable conf : Configuration.

Lemma resolveClient_events w request clientRef :
  ResolveEvents (resolveClient conf w request clientRef).2.
Proof.
  unfold resolveClient.
  destruct (retained clientRef); [constructor|].
  destruct (client request); [constructor|].
  destruct (plainLookup conf request); [constructor|].
  case_bool_decide; constructor.
Qed.

Lemma isRequestAllowed_events w request :
  LogEvents (isRequestAllowed conf w request).2.
Proof.
  unfold isRequestAllowed.
  destruct (client request); [|repeat constructor].
  repeat (case_match; simpl); repeat constructor.
Qed.

Lemma bypassChecksOf_true clientRef forceCheck :
  bypassChecksOf clientRef forceCheck = true →
  forceCheck = false ∧ ∃ c, retained clientRef = Some c.
Proof.
  unfold bypassChecksOf. rewrite andb_true_iff, negb_true_iff, bool_decide_eq_true.
  intros [-> [c Hc]]. eauto.
Qed.

Lemma resolveClient_retained w request clientRef c :
  retained clientRef = Some c →
  resolveClient conf w request clientRef = (Some c, []).
Proof. intros H. unfold resolveClient. by rewrite H. Qed.

Ltac name_update ev :=
  match goal with
  | |- context [if ?b then [EvUpdateUnknownLoggerUser ?l ?r] else []] =>
      set (ev := if b then [EvUpdateUnknownLoggerUser l r] else [])
  end.

(** Every run of [processRequest] is one of the three outcomes. *)
Lemma processRequest_outcome w request clientRef forceCheck :
  Outcome conf w request clientRef forceCheck
          (processRequest conf w request clientRef forceCheck).
Proof.
  unfold processRequest.
  destruct (bypassChecksOf clientRef forceCheck) eqn:Hby.
  - (* the checks are bypassed: the retained client is used *)
    destruct (bypassChecksOf_true _ _ Hby) as [_ [c Hc]].
    rewrite (resolveClient_retained w request clientRef c Hc). simpl.
    destruct (isValid request) eqn:Hv.
    + by apply bypassed.
    + by apply (rejected conf w request clientRef forceCheck true (Some c) _ [] []);
        [|apply resolveClient_retained| | | |intros ?? ?%elem_of_nil].
  - destruct (resolveClient conf w request clientRef) as [[c|] ev1] eqn:Hres.
    + simpl. destruct (isAlive c (dateReceived request)) eqn:Halive; simpl.
      * destruct (isValid request) eqn:Hv.
        -- change (setClient (setClientId request (id c)) (Some c))
             with (attach request c).
           set (out := attach request c).
           name_update ev2.
           assert (Hev2 : dispatched ev2 = [] ∧ processed ev2 = []
                          ∧ statusWritten ev2 = []
                          ∧ ∀ r b, EvIsRequestAllowed r b ∉ ev2).
           { subst ev2. case_match; simpl; repeat split; auto;
               intros r b Hin;
               [apply list_elem_of_singleton in Hin; discriminate
               |by apply elem_of_nil in Hin]. }
           destruct Hev2 as (Hd2 & Hp2 & Hs2 & Hn2).
           pose proof (isRequestAllowed_events w out) as Hlog.
           destruct (isRequestAllowed conf w out) as [[|] ev3] eqn:Hpol; simpl in *.
           ++ by eapply checked.
           ++ eapply (rejected _ _ _ _ _ false (Some c) out ev1
                        (ev2 ++ ev3 ++ [EvIsRequestAllowed out false;
                                        EvLog WARNING "Ignoring log from unauthorized logger"]));
                [done|done| | | |].
              ** rewrite !dispatched_app, Hd2.
                 by destruct (LogEvents_quiet _ Hlog) as (-> & _ & _).
              ** rewrite !processed_app, Hp2.
                 by destruct (LogEvents_quiet _ Hlog) as (_ & -> & _).
              ** rewrite !statusWritten_app, Hs2.
                 by destruct (LogEvents_quiet _ Hlog) as (_ & _ & ->).
              ** intros r b Hin.
                 apply elem_of_app in Hin as [Hin|Hin]; [by apply Hn2 in Hin|].
                 apply elem_of_app in Hin as [Hin|Hin].
                 { destruct (LogEvents_elem _ _ Hlog Hin) as (? & ? & ?); discriminate. }
                 apply elem_of_cons in Hin as [Hin|Hin].
                 { inversion Hin; subst. split; [done|]. by exists c. }
                 apply list_elem_of_singleton in Hin. discriminate.
        -- name_update ev2.
           eapply (rejected _ _ _ _ _ false (Some c) _ ev1 ev2); [done|done| | | |];
             subst ev2; case_match; simpl; auto; intros r b Hin;
             [apply list_elem_of_singleton in Hin; discriminate
             |by apply elem_of_nil in Hin].
      * eapply (rejected _ _ _ _ _ false (Some c) request ev1
                  [EvLog ERROR "Invalid request. Client is dead";
                   EvLog DEBUG "Req received: "]); [done..|].
        intros r b Hin. repeat (apply elem_of_cons in Hin as [Hin|Hin]; [discriminate|]).
        by apply elem_of_nil in Hin.
    + simpl.
      eapply (rejected _ _ _ _ _ false None request ev1); [done|done| | | |];
        case_match; simpl; auto; intros r b Hin;
        repeat (apply elem_of_cons in Hin as [Hin|Hin]; [discriminate|]);
        by apply elem_of_nil in Hin.
Qed.

Lemma resolveClient_quiet w request clientRef cl ev1 :
  resolveClient conf w request clientRef = (cl, ev1) →
  dispatched ev1 = [] ∧ processed ev1 = [] ∧ statusWritten ev1 = []
  ∧ ∀ r b, EvIsRequestAllowed r b ∉ ev1.
Proof.
  intros Hres. pose proof (resolveClient_events w request clientRef) as Hev.
  rewrite Hres in Hev. simpl in Hev.
  destruct (ResolveEvents_quiet _ Hev) as (? & ? & ?). repeat split; auto.
  intros r b Hin. destruct Hev.
  - by apply elem_of_nil in Hin.
  - apply list_elem_of_singleton in Hin. discriminate.
  - apply list_elem_of_singleton in Hin. discriminate.
Qed.

Lemma bypassChecksOf_false clientRef forceCheck :
  bypassChecksOf clientRef forceCheck = false
  ↔ forceCheck = true ∨ retained clientRef = None.
Proof.
  unfold bypassChecksOf. rewrite andb_false_iff, negb_false_iff, bool_decide_eq_false.
  split; (intros [H|H]; [by left|right]).
  - destruct (retained clientRef); [|done]. destruct H. eauto.
  - rewrite H. by intros [? ?].
Qed.

(** The records [processRequest] hands to the engine: the request with its
    client attached when it is accepted, none otherwise. *)
Lemma processRequest_dispatched w request clientRef forceCheck :
  let res := processRequest conf w request clientRef forceCheck in
  dispatched (emitted res) = if accepted res then [requestOut res] else [].
Proof.
  simpl.
  destruct (processRequest_outcome w request clientRef forceCheck)
    as [byp cl out ev1 ev _ Hres Hd _ _ _
       |c ev1 ev2 ev3 _ Hres _ _ Hpol Hd _ _ _
       |c _ _ _]; simpl.
  - destruct (resolveClient_quiet _ _ _ _ _ Hres) as (Hd1 & _).
    by rewrite dispatched_app, Hd1, Hd.
  - destruct (resolveClient_quiet _ _ _ _ _ Hres) as (Hd1 & _).
    pose proof (isRequestAllowed_events w (attach request c)) as Hlog.
    rewrite Hpol in Hlog. simpl in Hlog. destruct (LogEvents_quiet _ Hlog) as (Hd3 & _).
    by rewrite !dispatched_app, Hd1, Hd, Hd3.
  - reflexivity.
Qed.

(** Exactly one request enters each call. *)
Lemma processRequest_processed w request clientRef forceCheck :
  processed (emitted (processRequest conf w request clientRef forceCheck))
  = [request].
Proof.
  destruct (processRequest_outcome w request clientRef forceCheck)
    as [byp cl out ev1 ev _ Hres _ Hp _ _
       |c ev1 ev2 ev3 _ Hres _ _ Hpol _ Hp _ _
       |c _ _ _]; simpl.
  - destruct (resolveClient_quiet _ _ _ _ _ Hres) as (_ & Hp1 & _).
    by rewrite processed_app, Hp1, Hp.
  - destruct (resolveClient_quiet _ _ _ _ _ Hres) as (_ & Hp1 & _).
    pose proof (isRequestAllowed_events w (attach request c)) as Hlog.
    rewrite Hpol in Hlog. simpl in Hlog. destruct (LogEvents_quiet _ Hlog) as (_ & Hp3 & _).
    by rewrite !processed_app, Hp1, Hp, Hp3.
  - reflexivity.
Qed.

(** Nothing is written on the session. *)
Lemma processRequest_statusWritten w request clientRef forceCheck :
  statusWritten (emitted (processRequest conf w request clientRef forceCheck))
  = [].
Proof.
  destruct (processRequest_outcome w request clientRef forceCheck)
    as [byp cl out ev1 ev _ Hres _ _ Hs _
       |c ev1 ev2 ev3 _ Hres _ _ Hpol _ _ Hs _
       |c _ _ _]; simpl.
  - destruct (resolveClient_quiet _ _ _ _ _ Hres) as (_ & _ & Hs1 & _).
    by rewrite statusWritten_app, Hs1, Hs.
  - destruct (resolveClient_quiet _ _ _ _ _ Hres) as (_ & _ & Hs1 & _).
    pose proof (isRequestAllowed_events w (attach request c)) as Hlog.
    rewrite Hpol in Hlog. simpl in Hlog. destruct (LogEvents_quiet _ Hlog) as (_ & _ & Hs3).
    by rewrite !statusWritten_app, Hs1, Hs, Hs3.
  - reflexivity.
Qed.

(** A dispatched record is the request with the resolved client attached. *)
Lemma processRequest_dispatch_inv w request clientRef forceCheck r :
  EvDispatch r ∈ emitted (processRequest conf w request clientRef forceCheck) →
  ∃ c, (resolveClient conf w request clientRef).1 = Some c
       ∧ r = attach request c
       ∧ isValid request = true
       ∧ (bypassChecksOf clientRef forceCheck = false →
          isAlive c (dateReceived request) = true
          ∧ (isRequestAllowed conf w r).1 = true
          ∧ EvIsRequestAllowed r true
              ∈ emitted (processRequest conf w request clientRef forceCheck)).
Proof.
  intros Hin. apply elem_of_dispatched in Hin.
  rewrite processRequest_dispatched in Hin.
  destruct (processRequest_outcome w request clientRef forceCheck)
    as [byp cl out ev1 ev _ Hres _ _ _ _
       |c ev1 ev2 ev3 Hby Hres Halive Hv Hpol _ _ _ _
       |c Hby Hret Hv]; simpl in *.
  - by apply elem_of_nil in Hin.
  - apply list_elem_of_singleton in Hin as ->. exists c.
    rewrite Hres, Hpol. repeat split; auto.
    rewrite !elem_of_cons, !elem_of_app, !elem_of_cons. tauto.
  - apply list_elem_of_singleton in Hin as ->. exists c.
    rewrite (resolveClient_retained w request clientRef c Hret).
    repeat split; auto; congruence.
Qed.

(** The call is recorded with the value of [bypassChecks]. *)
Lemma processRequest_entered w request clientRef forceCheck :
  EvProcessRequest request (bypassChecksOf clientRef forceCheck)
  ∈ emitted (processRequest conf w request clientRef forceCheck).
Proof.
  destruct (processRequest_outcome w request clientRef forceCheck)
    as [byp cl out ev1 ev <- _ _ _ _ _
       |c ev1 ev2 ev3 -> _ _ _ _ _ _ _ _
       |c -> _ _]; simpl; apply list_elem_of_here.
Qed.

(** No call is made on the queue. *)
Lemma processRequest_queueCalls w request clientRef forceCheck :
  queueCalls (emitted (processRequest conf w request clientRef forceCheck)) = [].
Proof.
  unfold processRequest, resolveClient, isRequestAllowed, dispatch.
  repeat (case_match; simpl in *; simplify_eq); reflexivity.
Qed.

(** [*clientRef] on return is the resolved client, and the events of the
    resolution are part of the events of the call. *)
Lemma processRequest_clientRefOut w request clientRef forceCheck :
  clientRefOut (processRequest conf w request clientRef forceCheck)
  = (resolveClient conf w request clientRef).1
  ∧ ∀ e, e ∈ (resolveClient conf w request clientRef).2 →
         e ∈ emitted (processRequest conf w request clientRef forceCheck).
Proof.
  destruct (processRequest_outcome w request clientRef forceCheck)
    as [byp cl out ev1 ev _ Hres _ _ _ _
       |c ev1 ev2 ev3 _ Hres _ _ _ _ _ _ _
       |c _ Hret _]; simpl.
  - rewrite Hres. split; [done|]. intros e He.
    rewrite elem_of_cons, elem_of_app. auto.
  - rewrite Hres. split; [done|]. intros e He.
    rewrite elem_of_cons, elem_of_app. auto.
  - rewrite (resolveClient_retained w request clientRef c Hret).
    split; [done|]. by intros e ?%elem_of_nil.
Qed.

(** C1, amended.  A record dispatched by a call of [processRequest] that
    performs the checks (forced validation, or no retained client: every
    non-bulk record and every checked item of a bulk) was allowed by
    [isRequestAllowed], which was called on it and returned true.  A call
    made for a retained client without forced validation dispatches without
    calling the policy evaluator. *)
Theorem processRequest_checked_dispatch_allowed w request clientRef forceCheck r :
  EvDispatch r ∈ emitted (processRequest conf w request clientRef forceCheck) →
  (forceCheck = true ∨ retained clientRef = None →
     (isRequestAllowed conf w r).1 = true
     ∧ EvIsRequestAllowed r true
         ∈ emitted (processRequest conf w request clientRef forceCheck))
  ∧ (forceCheck = false ∧ is_Some (retained clientRef) →
     ∀ r' b, EvIsRequestAllowed r' b
               ∉ emitted (processRequest conf w request clientRef forceCheck)).
Proof.
  intros Hin. split.
  - intros Hchk%bypassChecksOf_false.
    destruct (processRequest_dispatch_inv _ _ _ _ _ Hin) as (c & _ & _ & _ & H).
    destruct (H Hchk) as (_ & ? & ?). by split.
  - intros [-> [c Hc]] r' b.
    apply elem_of_dispatched in Hin. rewrite processRequest_dispatched in Hin.
    destruct (processRequest_outcome w request clientRef false)
      as [byp cl out ev1 ev Hby Hres _ _ _ Hpol
         |c' ev1 ev2 ev3 Hby _ _ _ _ _ _ _ _
         |c' _ _ _]; simpl in *.
    + by apply elem_of_nil in Hin.
    + apply bypassChecksOf_false in Hby as [?|Hby]; [done|congruence].
    + intros Hr. repeat (apply elem_of_cons in Hr as [Hr|Hr]; [discriminate|]).
      by apply elem_of_nil in Hr.
Qed.

(** What [processRequest] does to the request, by the client it resolves.
    When a client is resolved and not found dead, the request leaves with
    the client attached, and this is the request handed over at every later
    step; otherwise the request is left as it was and handed to nobody. *)
Lemma processRequest_attached w request clientRef forceCheck :
  let res := processRequest conf w request clientRef forceCheck in
  match (resolveClient conf w request clientRef).1 with
  | Some c =>
      if bypassChecksOf clientRef forceCheck || isAlive c (dateReceived request)
      then requestOut res = attach request c
           ∧ clientId (requestOut res) = id c
           ∧ client (requestOut res) = Some c
           ∧ (∀ r, r ∈ handedOver (emitted res) → r = attach request c)
           ∧ (isValid request = true →
              attach request c ∈ handedOver (emitted res))
           ∧ dispatched (emitted res)
             = (if accepted res then [attach request c] else [])
      else requestOut res = request ∧ handedOver (emitted res) = []
  | None => requestOut res = request ∧ handedOver (emitted res) = []
  end.
Proof.
  pose proof (resolveClient_events w request clientRef) as Hev1.
  apply ResolveEvents_handedOver in Hev1.
  pose proof (processRequest_dispatched w request clientRef forceCheck) as Hd.
  simpl in *. revert Hd. unfold processRequest.
  destruct (resolveClient conf w request clientRef) as [[c|] ev1]; simpl in *.
  - change (setClient (setClientId request (id c)) (Some c))
      with (attach request c).
    pose proof (isRequestAllowed_events w (attach request c)) as Hev3.
    apply LogEvents_handedOver in Hev3.
    destruct (bypassChecksOf clientRef forceCheck); simpl.
    + destruct (isValid request); simpl; intros Hd;
        (split; [done|]); (split; [done|]); (split; [done|]);
        rewrite !handedOver_app, Hev1; simpl.
      * split; [by intros r ->%list_elem_of_singleton|].
        split; [intros _; apply list_elem_of_here|done].
      * split; [by intros r ?%elem_of_nil|]. split; [done|done].
    + destruct (isAlive c (dateReceived request)); simpl.
      * name_update ev2.
        assert (Hev2 : handedOver ev2 = [] ∨ handedOver ev2 = [attach request c]).
        { subst ev2. case_match; simpl; auto. }
        destruct (isValid request); simpl.
        -- destruct (isRequestAllowed conf w (attach request c))
             as [[|] ev3]; simpl in *; intros Hd;
             (split; [done|]); (split; [done|]); (split; [done|]);
             rewrite !handedOver_app, Hev1, Hev3; simpl;
             (split; [|split; [|done]]).
           ++ intros r [Hr|Hr]%elem_of_app.
              ** destruct Hev2 as [Hev2|Hev2]; rewrite Hev2 in Hr;
                   [by apply elem_of_nil in Hr
                   |by apply list_elem_of_singleton in Hr].
              ** repeat (apply elem_of_cons in Hr as [->|Hr]; [done|]).
                 by apply elem_of_nil in Hr.
           ++ intros _. apply elem_of_app. right. apply list_elem_of_here.
           ++ intros r [Hr|Hr]%elem_of_app.
              ** destruct Hev2 as [Hev2|Hev2]; rewrite Hev2 in Hr;
                   [by apply elem_of_nil in Hr
                   |by apply list_elem_of_singleton in Hr].
              ** repeat (apply elem_of_cons in Hr as [->|Hr]; [done|]).
                 by apply elem_of_nil in Hr.
           ++ intros _. apply elem_of_app. right. apply list_elem_of_here.
        -- intros Hd.
           (split; [done|]); (split; [done|]); (split; [done|]).
           rewrite !handedOver_app, Hev1; simpl.
           split; [|split; [done|done]].
           intros r Hr.
           destruct Hev2 as [Hev2|Hev2]; rewrite Hev2 in Hr;
             [by apply elem_of_nil in Hr
             |by apply list_elem_of_singleton in Hr].
      * intros _. split; [done|]. rewrite !handedOver_app, Hev1. done.
  - intros _. split; [done|]. rewrite !handedOver_app, Hev1.
    by destruct (hasFlag conf ALLOW_PLAIN_LOG_REQUEST).
Qed.

(** C10, amended.  Whenever [processRequest] resolves a client [c] (the
    retained reference, else the client of the request, else the registry
    lookup) and does not find it dead (the checks are bypassed, or [c] is
    alive at [dateReceived]), it overwrites the [clientId] of the request with
    [id c] and attaches [c]; this is done before the unknown-logger update,
    the policy check and the dispatch, which are all handed the request so
    changed, and a valid request is handed over at least once.  When the
    client is dead, or no client is resolved, the request is left as it was
    and is handed to none of them.  Hence every record that reaches the
    file-logging engine carries the resolved client and its id. *)
Theorem processRequest_client_attached w request clientRef forceCheck :
  let res := processRequest conf w request clientRef forceCheck in
  match (resolveClient conf w request clientRef).1 with
  | Some c =>
      if bypassChecksOf clientRef forceCheck || isAlive c (dateReceived request)
      then requestOut res = attach request c
           ∧ clientId (requestOut res) = id c
           ∧ client (requestOut res) = Some c
           ∧ (∀ r, r ∈ handedOver (emitted res) → r = attach request c)
           ∧ (isValid request = true →
              attach request c ∈ handedOver (emitted res))
           ∧ dispatched (emitted res)
             = (if accepted res then [attach request c] else [])
      else requestOut res = request ∧ handedOver (emitted res) = []
  | None => requestOut res = request ∧ handedOver (emitted res) = []
  end.
Proof. exact (processRequest_attached w request clientRef forceCheck). Qed.

End ProcessRequest.

(** ** The items of a bulk *)

Section Bulk.

Variable conf : Configuration.
Context {Json : Type}.
Variable deserialize : Json → LogRequest.
Variable env : nat → World.

Lemma revalidate_payload w bs requestItem :
  payload (revalidate w bs requestItem).1.2 = payload requestItem
  ∧ dateReceived (revalidate w bs requestItem).1.2 = dateReceived requestItem
  ∧ itemCount (revalidate w bs requestItem).1.1 = itemCount bs.
Proof. unfold revalidate. by destruct (integrityTaskRan w bs). Qed.

Lemma revalidate_events w bs requestItem :
  LogEvents (revalidate w bs requestItem).2.
Proof.
  unfold revalidate. destruct (integrityTaskRan w bs); repeat constructor.
Qed.

Lemma processItem_itemCount w bs requestItem :
  itemCount (processItem conf w bs requestItem).1 = S (itemCount bs).
Proof. unfold processItem. by destruct (accepted _). Qed.

Lemma processItem_events w bs requestItem :
  (processItem conf w bs requestItem).2
  = emitted (processRequest conf w requestItem (Some (currentClient bs))
                            (forceClientValidation bs)).
Proof. unfold processItem. by destruct (accepted _). Qed.

(** The events of one array element: a valid element is revalidated and
    processed, an invalid one is reported. *)
Lemma bulkItem_valid w request bs it :
  isValid (deserialize it) = true →
  let requestItem :=
    setDateReceived (setIpAddr (deserialize it) (ipAddr request))
                    (dateReceived request) in
  let rv := revalidate w bs requestItem in
  bulkItem conf deserialize w request bs it
  = ((processItem conf w rv.1.1 rv.1.2).1,
     rv.2 ++ (processItem conf w rv.1.1 rv.1.2).2).
Proof.
  intros Hv. unfold bulkItem. rewrite Hv. simpl.
  destruct (revalidate w bs _) as [[bs' item'] ev1]. simpl.
  by destruct (processItem conf w bs' item').
Qed.

Lemma bulkItem_invalid w request bs it :
  isValid (deserialize it) = false →
  bulkItem conf deserialize w request bs it
  = (bs, [EvLog ERROR "Invalid request in bulk."]).
Proof. intros Hv. unfold bulkItem. by rewrite Hv. Qed.

Lemma bulkItem_itemCount w request bs it :
  itemCount (bulkItem conf deserialize w request bs it).1
  = if isValid (deserialize it) then S (itemCount bs) else itemCount bs.
Proof.
  destruct (isValid (deserialize it)) eqn:Hv.
  - rewrite (bulkItem_valid _ _ _ _ Hv). simpl.
    rewrite processItem_itemCount. f_equal. apply revalidate_payload.
  - by rewrite (bulkItem_invalid _ _ _ _ Hv).
Qed.

Lemma bulkItem_processed w request bs it :
  payload <$> processed (bulkItem conf deserialize w request bs it).2
  = if isValid (deserialize it) then [payload (deserialize it)] else [].
Proof.
  destruct (isValid (deserialize it)) eqn:Hv.
  - rewrite (bulkItem_valid _ _ _ _ Hv). simpl.
    rewrite processed_app, processItem_events, processRequest_processed.
    destruct (LogEvents_quiet _ (revalidate_events w bs
      (setDateReceived (setIpAddr (deserialize it) (ipAddr request))
                       (dateReceived request)))) as (_ & -> & _).
    simpl. f_equal. by rewrite (proj1 (revalidate_payload _ _ _)).
  - by rewrite (bulkItem_invalid _ _ _ _ Hv).
Qed.

Lemma bulkItem_statusWritten w request bs it :
  statusWritten (bulkItem conf deserialize w request bs it).2 = [].
Proof.
  destruct (isValid (deserialize it)) eqn:Hv.
  - rewrite (bulkItem_valid _ _ _ _ Hv). simpl.
    rewrite statusWritten_app, processItem_events, processRequest_statusWritten.
    by destruct (LogEvents_quiet _ (revalidate_events w bs
      (setDateReceived (setIpAddr (deserialize it) (ipAddr request))
                       (dateReceived request)))) as (_ & _ & ->).
  - by rewrite (bulkItem_invalid _ _ _ _ Hv).
Qed.

Lemma bulkItem_queueCalls w request bs it :
  queueCalls (bulkItem conf deserialize w request bs it).2 = [].
Proof.
  destruct (isValid (deserialize it)) eqn:Hv.
  - rewrite (bulkItem_valid _ _ _ _ Hv). simpl.
    rewrite queueCalls_app, processItem_events, processRequest_queueCalls.
    by rewrite (LogEvents_queueCalls _ (revalidate_events _ _ _)).
  - by rewrite (bulkItem_invalid _ _ _ _ Hv).
Qed.

(** The overflow line is written by the loop only. *)
Lemma processRequest_no_overflow w request clientRef forceCheck :
  bulkOverflow ∉ emitted (processRequest conf w request clientRef forceCheck).
Proof.
  unfold processRequest, resolveClient, isRequestAllowed, dispatch, bulkOverflow.
  repeat (case_match; simpl in *; simplify_eq);
    intros Hov; not_in_literal Hov.
Qed.

Lemma bulkItem_no_overflow w request bs it :
  bulkOverflow ∉ (bulkItem conf deserialize w request bs it).2.
Proof.
  destruct (isValid (deserialize it)) eqn:Hv.
  - rewrite (bulkItem_valid _ _ _ _ Hv). simpl.
    rewrite processItem_events. intros [Hov|Hov]%elem_of_app.
    + revert Hov. unfold revalidate, bulkOverflow.
      case_match; simpl; intros Hov; not_in_literal Hov.
    + by apply processRequest_no_overflow in Hov.
  - rewrite (bulkItem_invalid _ _ _ _ Hv). unfold bulkOverflow.
    intros Hov. not_in_literal Hov.
Qed.

Lemma validItems_cons it j :
  validItems deserialize (it :: j)
  = if isValid (deserialize it)
    then deserialize it :: validItems deserialize j
    else validItems deserialize j.
Proof. reflexivity. Qed.

Lemma validItems_length j : length (validItems deserialize j) ≤ length j.
Proof.
  induction j as [|it j IH]; [done|].
  rewrite validItems_cons. destruct (isValid (deserialize it)); simpl; lia.
Qed.

Lemma validItems_all j :
  Forall (λ it, isValid (deserialize it) = true) j →
  validItems deserialize j = deserialize <$> j.
Proof.
  induction 1 as [|it j Hv _ IH]; [done|].
  rewrite validItems_cons, Hv, IH. reflexivity.
Qed.

(** The loop processes the valid elements in order until [itemCount] has
    reached the cap. *)
Lemma bulkLoop_processed tick request bs j :
  itemCount bs ≤ maxItemsInBulk conf →
  payload <$> processed (bulkLoop conf deserialize env tick request bs j).2
  = payload <$> take (maxItemsInBulk conf - itemCount bs)
                     (validItems deserialize j).
Proof.
  revert tick bs. induction j as [|it j IH]; intros tick bs Hle.
  - change (validItems deserialize []) with (@nil LogRequest).
    by rewrite take_nil.
  - simpl. destruct (Nat.eqb_spec (itemCount bs) (maxItemsInBulk conf)) as [Heq|Hne].
    + simpl. by rewrite Heq, Nat.sub_diag.
    + pose proof (bulkItem_itemCount (env tick) request bs it) as Hcount.
      pose proof (bulkItem_processed (env tick) request bs it) as Hproc.
      destruct (bulkItem conf deserialize (env tick) request bs it) as [bs' ev].
      simpl in Hcount, Hproc.
      assert (Hle' : itemCount bs' ≤ maxItemsInBulk conf)
        by (rewrite Hcount; destruct (isValid (deserialize it)); lia).
      specialize (IH (S tick) bs' Hle').
      destruct (bulkLoop conf deserialize env (S tick) request bs' j) as [bs'' evs].
      simpl in *. rewrite processed_app, fmap_app, Hproc, IH, validItems_cons, Hcount.
      destruct (isValid (deserialize it)); [|done].
      replace (maxItemsInBulk conf - itemCount bs)
        with (S (maxItemsInBulk conf - S (itemCount bs))) by lia.
      reflexivity.
Qed.

(** The overflow line is written exactly when an element of the array is
    reached with [itemCount] at the cap. *)
Lemma bulkLoop_overflow tick request bs j :
  itemCount bs ≤ maxItemsInBulk conf →
  bulkOverflow ∈ (bulkLoop conf deserialize env tick request bs j).2
  ↔ ∃ j1 j2, j = j1 ++ j2 ∧ j2 ≠ []
             ∧ itemCount bs + length (validItems deserialize j1)
               = maxItemsInBulk conf.
Proof.
  revert tick bs. induction j as [|it j IH]; intros tick bs Hle.
  - simpl. split; [by intros ?%elem_of_nil|].
    intros (j1 & j2 & Hj & Hne & _). symmetry in Hj.
    by apply app_eq_nil in Hj as [_ ->].
  - simpl. destruct (Nat.eqb_spec (itemCount bs) (maxItemsInBulk conf)) as [Heq|Hne].
    + simpl. split; [|intros _; apply list_elem_of_here].
      intros _. exists [], (it :: j). simpl. split; [done|]. split; [done|lia].
    + pose proof (bulkItem_itemCount (env tick) request bs it) as Hcount.
      pose proof (bulkItem_no_overflow (env tick) request bs it) as Hno.
      destruct (bulkItem conf deserialize (env tick) request bs it) as [bs' ev].
      simpl in Hcount, Hno.
      assert (Hle' : itemCount bs' ≤ maxItemsInBulk conf)
        by (rewrite Hcount; destruct (isValid (deserialize it)); lia).
      specialize (IH (S tick) bs' Hle').
      destruct (bulkLoop conf deserialize env (S tick) request bs' j) as [bs'' evs].
      simpl in *. rewrite elem_of_app, IH. split.
      * intros [?|(j1 & j2 & -> & Hj2 & Hlen)]; [done|].
        exists (it :: j1), j2. split; [done|]. split; [done|].
        rewrite validItems_cons. rewrite Hcount in Hlen.
        destruct (isValid (deserialize it)); simpl; lia.
      * intros (j1 & j2 & Hj & Hj2 & Hlen). right.
        destruct j1 as [|it' j1]; [simpl in Hlen; lia|].
        simpl in Hj. inversion Hj; subst it' j.
        exists j1, j2. split; [done|]. split; [done|].
        rewrite validItems_cons in Hlen. rewrite Hcount.
        destruct (isValid (deserialize it)); simpl in *; lia.
Qed.

(** C7, amended.  The cap counts the valid elements of the array (an
    invalid element is reported and skipped, and does not count): at most
    [maxItemsInBulk] requests enter [processRequest], they are the first
    [maxItemsInBulk] valid elements in array order, and the overflow ERROR is
    logged exactly when some element follows the [maxItemsInBulk]-th valid
    one, the rest being ignored.  Hence a bulk of at most [maxItemsInBulk]
    elements is processed fully without overflow, and a longer bulk whose
    elements are all valid processes its first [maxItemsInBulk] elements and
    logs the overflow. *)
Theorem bulkLoop_maxItemsInBulk tick w request j :
  let evs :=
    (bulkLoop conf deserialize env tick request (bulkStart w request) j).2 in
  length (processed evs) ≤ maxItemsInBulk conf
  ∧ payload <$> processed evs
    = payload <$> take (maxItemsInBulk conf) (validItems deserialize j)
  ∧ (bulkOverflow ∈ evs
     ↔ ∃ j1 j2, j = j1 ++ j2 ∧ j2 ≠ []
                ∧ length (validItems deserialize j1) = maxItemsInBulk conf)
  ∧ (length j ≤ maxItemsInBulk conf →
     (bulkOverflow ∉ evs)
     ∧ payload <$> processed evs = payload <$> validItems deserialize j)
  ∧ (Forall (λ it, isValid (deserialize it) = true) j →
     maxItemsInBulk conf < length j →
     bulkOverflow ∈ evs
     ∧ payload <$> processed evs
       = payload <$> take (maxItemsInBulk conf) (deserialize <$> j)).
Proof.
  intros evs.
  assert (H0 : itemCount (bulkStart w request) ≤ maxItemsInBulk conf)
    by (simpl; lia).
  pose proof (bulkLoop_processed tick request _ j H0) as Hproc.
  pose proof (bulkLoop_overflow tick request _ j H0) as Hov.
  simpl in Hproc, Hov. rewrite Nat.sub_0_r in Hproc. fold evs in Hproc, Hov.
  split; [|split; [done|split; [done|split]]].
  - rewrite <- (length_fmap payload), Hproc, length_fmap, length_take. lia.
  - intros Hlen. split.
    + rewrite Hov. intros (j1 & j2 & -> & Hj2 & Hcap).
      pose proof (validItems_length j1). rewrite length_app in Hlen.
      destruct j2; [done|]. simpl in Hlen. lia.
    + rewrite Hproc, take_ge; [done|].
      pose proof (validItems_length j). lia.
  - intros Hall Hlen. split.
    + rewrite Hov. exists (take (maxItemsInBulk conf) j), (drop (maxItemsInBulk conf) j).
      split; [by rewrite take_drop|]. split.
      * intros Hnil. apply (f_equal length) in Hnil.
        rewrite length_drop in Hnil. simpl in Hnil. lia.
      * rewrite validItems_all, length_fmap, length_take; [lia|].
        by apply Forall_take.
    + by rewrite Hproc, validItems_all.
Qed.

(** C3, amended.  A record dispatched by a call of [processRequest] that
    performs the checks keeps the [dateReceived] of the request, carries a
    client, and its token was found valid by [isValidToken] evaluated at that
    [dateReceived]; the wall clock has no part in the outcome of the call.
    For the elements of a bulk that date is the one of the envelope.  (A call
    made for a retained client without forced validation validates no
    token.) *)
Theorem token_validated_at_dateReceived w request clientRef forceCheck r :
  EvDispatch r ∈ emitted (processRequest conf w request clientRef forceCheck) →
  forceCheck = true ∨ retained clientRef = None →
  dateReceived r = dateReceived request
  ∧ (∃ c, client r = Some c
          ∧ isValidToken conf c (loggerId r) (token r) (registry w)
                         (dateReceived r) = true)
  ∧ (∀ t, processRequest conf {| registry := registry w; clock := t |}
                         request clientRef forceCheck
          = processRequest conf w request clientRef forceCheck)
  ∧ (∀ envelope bs it r',
       EvDispatch r' ∈ (bulkItem conf deserialize w envelope bs it).2 →
       dateReceived r' = dateReceived envelope).
Proof.
  intros Hin Hchk%bypassChecksOf_false.
  destruct (processRequest_dispatch_inv conf _ _ _ _ _ Hin)
    as (c & _ & -> & _ & H).
  destruct (H Hchk) as (_ & Hpol & _).
  split; [done|]. split; [|split; [done|]].
  - exists c. split; [done|].
    rewrite (isRequestAllowed_client conf w (attach request c) c eq_refl) in Hpol.
    by apply andb_true_iff in Hpol as [_ ?].
  - intros envelope bs it r' Hin'.
    destruct (isValid (deserialize it)) eqn:Hv.
    + rewrite (bulkItem_valid _ _ _ _ Hv) in Hin'. simpl in Hin'.
      apply elem_of_app in Hin' as [Hin'|Hin'].
      { destruct (LogEvents_elem _ _ (revalidate_events _ _ _) Hin')
          as (? & ? & ?); discriminate. }
      rewrite processItem_events in Hin'.
      destruct (processRequest_dispatch_inv conf _ _ _ _ _ Hin')
        as (c' & _ & -> & _).
      simpl. by rewrite (proj1 (proj2 (revalidate_payload _ _ _))).
    + rewrite (bulkItem_invalid _ _ _ _ Hv) in Hin'.
      apply list_elem_of_singleton in Hin'. discriminate.
Qed.


End Bulk.

(** ** The queue *)

Section Queue.

Context {A : Type}.

Lemma push_drain (x : A) q :
  RequestQueue.drain (RequestQueue.push x q) = RequestQueue.drain q.
Proof. unfold RequestQueue.push, RequestQueue.drain. by destruct q as [? ? []]. Qed.

Lemma push_backlog (x : A) q :
  RequestQueue.backlog (RequestQueue.push x q) = RequestQueue.backlog q ++ [x].
Proof. unfold RequestQueue.push, RequestQueue.backlog. by destruct q as [? ? []]. Qed.

Lemma pull_Some (q : RequestQueue.t A) x q' :
  RequestQueue.pull q = Some (x, q') →
  RequestQueue.drain q = x :: RequestQueue.drain q'
  ∧ RequestQueue.backlog q' = RequestQueue.backlog q
  ∧ RequestQueue.activeIdx q' = RequestQueue.activeIdx q.
Proof.
  unfold RequestQueue.pull, RequestQueue.drain, RequestQueue.backlog.
  destruct q as [b0 b1 []]; simpl.
  - destruct b0; [done|]. intros [= <- <-]. by simpl.
  - destruct b1; [done|]. intros [= <- <-]. by simpl.
Qed.

Lemma pull_cons (q : RequestQueue.t A) x rest :
  RequestQueue.drain q = x :: rest →
  ∃ q', RequestQueue.pull q = Some (x, q') ∧ RequestQueue.drain q' = rest.
Proof.
  unfold RequestQueue.pull, RequestQueue.drain.
  destruct q as [b0 b1 []]; simpl; intros ->; eauto.
Qed.

Lemma switchContext_swaps (q : RequestQueue.t A) :
  RequestQueue.drain (RequestQueue.switchContext q) = RequestQueue.backlog q
  ∧ RequestQueue.backlog (RequestQueue.switchContext q) = RequestQueue.drain q.
Proof.
  unfold RequestQueue.switchContext, RequestQueue.drain, RequestQueue.backlog.
  by destruct q as [? ? []].
Qed.

End Queue.

(** ** The drain round and handle *)

Section Handler.

Variable conf : Configuration.
Context {Json : Type}.
Variable deserialize : Json → LogRequest.
Variable env : nat → World.
Context {RawRequest : Type}.
Variable decode :
  World → RawRequest → Request.StatusCode → bool → LogRequest * list Json.

Local Abbreviation step := (processRawRequest conf deserialize env decode).
Local Abbreviation loop := (drainLoop conf deserialize env decode).
Local Abbreviation round := (processRequestQueue conf deserialize env decode).

Lemma bulkLoop_statusWritten tick request bs j :
  statusWritten (bulkLoop conf deserialize env tick request bs j).2 = [].
Proof.
  revert tick bs. induction j as [|it j IH]; intros tick bs; [done|].
  simpl. destruct (itemCount bs =? maxItemsInBulk conf); [done|].
  pose proof (bulkItem_statusWritten conf deserialize (env tick) request bs it) as Hit.
  destruct (bulkItem conf deserialize (env tick) request bs it) as [bs' ev].
  specialize (IH (S tick) bs').
  destruct (bulkLoop conf deserialize env (S tick) request bs' j) as [bs'' evs].
  simpl in *. by rewrite statusWritten_app, Hit, IH.
Qed.

Lemma emit_statusWritten evs (h : @Handler RawRequest) :
  statusWritten evs = [] →
  statusWritten (trace (emit evs h)) = statusWritten (trace h).
Proof.
  intros Hq. unfold emit. simpl. by rewrite statusWritten_app, Hq, app_nil_r.
Qed.

Lemma processRawRequest_statusWritten allowPlain compression h :
  statusWritten (trace (step allowPlain compression h).1)
  = statusWritten (trace h).
Proof.
  unfold processRawRequest.
  set (h0 := if 0 <? dispatchDelay conf then emit _ h else h).
  assert (H0 : statusWritten (trace h0) = statusWritten (trace h)).
  { subst h0. destruct (0 <? dispatchDelay conf); [|done].
    by apply emit_statusWritten. }
  destruct (RequestQueue.pull (m_queue h0)) as [[raw q]|]; [|done].
  destruct (decode _ raw _ _) as [request j].
  destruct (buildFailed request); simpl.
  { by rewrite !statusWritten_app, H0, !app_nil_r. }
  destruct (isBulk request).
  - destruct (hasFlag conf ALLOW_BULK_LOG_REQUEST); simpl.
    + pose proof (bulkLoop_statusWritten (S (tick h0)) request
                    (bulkStart (env (tick h0)) request) j) as Hb.
      destruct (bulkLoop _ _ _ _ _ _ _) as [bs evs]. simpl in *.
      by rewrite !statusWritten_app, H0, Hb, !app_nil_r.
    + by rewrite !statusWritten_app, H0, !app_nil_r.
  - simpl. rewrite !statusWritten_app, H0, processRequest_statusWritten.
    by rewrite !app_nil_r.
Qed.

Lemma drainLoop_statusWritten allowPlain compression total h :
  statusWritten (trace (loop allowPlain compression total h).1)
  = statusWritten (trace h).
Proof.
  revert h. induction total as [|n IH]; intros h; [done|].
  simpl. pose proof (processRawRequest_statusWritten allowPlain compression h) as H1.
  destruct (step allowPlain compression h) as [h' []]; simpl in *.
  - by rewrite IH.
  - done.
Qed.

(** A drain round writes nothing on any session. *)
Lemma processRequestQueue_statusWritten h :
  statusWritten (trace (round h)) = statusWritten (trace h).
Proof.
  unfold processRequestQueue.
  pose proof (drainLoop_statusWritten (hasFlag conf ALLOW_PLAIN_LOG_REQUEST)
                (hasFlag conf COMPRESSION) (RequestQueue.size (m_queue h))
                (emit [EvQueueSize (RequestQueue.size (m_queue h))] h)) as H1.
  destruct (drainLoop _ _ _ _) as [h' []]; simpl in *.
  - by rewrite statusWritten_app, H1, statusWritten_app, !app_nil_r.
  - by rewrite H1, statusWritten_app, app_nil_r.
Qed.

Lemma bulkLoop_queueCalls tick request bs j :
  queueCalls (bulkLoop conf deserialize env tick request bs j).2 = [].
Proof.
  revert tick bs. induction j as [|it j IH]; intros tick bs; [done|].
  simpl. destruct (itemCount bs =? maxItemsInBulk conf); [done|].
  pose proof (bulkItem_queueCalls conf deserialize (env tick) request bs it) as Hit.
  destruct (bulkItem conf deserialize (env tick) request bs it) as [bs' ev].
  specialize (IH (S tick) bs').
  destruct (bulkLoop conf deserialize env (S tick) request bs' j) as [bs'' evs].
  simpl in *. by rewrite queueCalls_app, Hit, IH.
Qed.

(** An iteration whose frame cannot be built: the failure is logged and the
    function returns. *)
Lemma processRawRequest_failed allowPlain compression h raw rest :
  RequestQueue.drain (m_queue h) = raw :: rest →
  buildFailed (decode (env (tick h)) raw (defaultStatus allowPlain) compression).1
  = true →
  ∃ h', step allowPlain compression h = (h', Return)
        ∧ trace h' = trace h ++ sleepEvents conf
                     ++ [EvQueuePull; EvHandleRaw;
                         EvLog (VERBOSE RV_ERROR) "Failed: "]
        ∧ RequestQueue.drain (m_queue h') = rest
        ∧ RequestQueue.backlog (m_queue h') = RequestQueue.backlog (m_queue h)
        ∧ RequestQueue.activeIdx (m_queue h') = RequestQueue.activeIdx (m_queue h).
Proof.
  intros Hdrain Hfail. unfold processRawRequest, sleepEvents.
  set (h0 := if 0 <? dispatchDelay conf then emit _ h else h).
  assert (H0 : m_queue h0 = m_queue h ∧ tick h0 = tick h
               ∧ trace h0 = trace h
                   ++ if 0 <? dispatchDelay conf
                      then [EvSleep (dispatchDelay conf)] else []).
  { subst h0. destruct (0 <? dispatchDelay conf); simpl; [done|].
    by rewrite app_nil_r. }
  destruct H0 as (Hq & Ht & Htr). rewrite Hq, Ht.
  destruct (pull_cons _ _ _ Hdrain) as (q' & Hpull & Hrest).
  rewrite Hpull.
  destruct (decode _ raw _ _) as [request j]. simpl in Hfail. rewrite Hfail.
  eexists. split; [done|]. simpl. rewrite Htr, <- !app_assoc. simpl.
  destruct (pull_Some _ _ _ Hpull) as (_ & ? & ?). done.
Qed.

(** An iteration whose frame is built: the body runs to its end, and the
    only call made on the queue is the pull. *)
Lemma processRawRequest_built allowPlain compression h raw rest :
  RequestQueue.drain (m_queue h) = raw :: rest →
  buildFailed (decode (env (tick h)) raw (defaultStatus allowPlain) compression).1
  = false →
  ∃ h', step allowPlain compression h = (h', Next)
        ∧ queueCalls (trace h') = queueCalls (trace h) ++ [EvQueuePull]
        ∧ RequestQueue.drain (m_queue h') = rest
        ∧ RequestQueue.backlog (m_queue h') = RequestQueue.backlog (m_queue h)
        ∧ RequestQueue.activeIdx (m_queue h') = RequestQueue.activeIdx (m_queue h)
        ∧ tick h < tick h'.
Proof.
  intros Hdrain Hok. unfold processRawRequest.
  set (h0 := if 0 <? dispatchDelay conf then emit _ h else h).
  assert (H0 : m_queue h0 = m_queue h ∧ tick h0 = tick h
               ∧ queueCalls (trace h0) = queueCalls (trace h)).
  { subst h0. destruct (0 <? dispatchDelay conf); simpl; [|done].
    by rewrite queueCalls_app, app_nil_r. }
  destruct H0 as (Hq & Ht & Htr). rewrite Hq, Ht.
  destruct (pull_cons _ _ _ Hdrain) as (q' & Hpull & Hrest).
  destruct (pull_Some _ _ _ Hpull) as (_ & Hback & Hidx).
  rewrite Hpull.
  destruct (decode _ raw _ _) as [request j]. simpl in Hok. rewrite Hok.
  destruct (isBulk request).
  - destruct (hasFlag conf ALLOW_BULK_LOG_REQUEST).
    + pose proof (bulkLoop_queueCalls (S (tick h)) request
                    (bulkStart (env (tick h)) request) j) as Hb.
      simpl. destruct (bulkLoop _ _ _ _ _ _ _) as [bs evs]. simpl in *.
      eexists. split; [done|]. simpl.
      rewrite !queueCalls_app, Htr, Hb. simpl. rewrite app_nil_r.
      repeat split; auto. lia.
    + eexists. split; [done|]. simpl.
      rewrite !queueCalls_app, Htr. simpl. rewrite app_nil_r.
      repeat split; auto.
  - eexists. split; [done|]. simpl.
    rewrite !queueCalls_app, Htr, processRequest_queueCalls. simpl.
    rewrite app_nil_r. repeat split; auto.
Qed.

(** The loop over frames that are all built pulls each of them once and
    runs to its end. *)
Lemma drainLoop_built allowPlain compression frames rest h :
  RequestQueue.drain (m_queue h) = frames ++ rest →
  Forall (builds decode allowPlain compression) frames →
  ∃ h', loop allowPlain compression (length frames) h = (h', Next)
        ∧ queueCalls (trace h')
          = queueCalls (trace h) ++ replicate (length frames) EvQueuePull
        ∧ RequestQueue.drain (m_queue h') = rest
        ∧ RequestQueue.backlog (m_queue h') = RequestQueue.backlog (m_queue h)
        ∧ RequestQueue.activeIdx (m_queue h') = RequestQueue.activeIdx (m_queue h).
Proof.
  revert h. induction frames as [|raw frames IH]; intros h Hdrain Hall.
  - exists h. simpl. by rewrite app_nil_r.
  - inversion Hall as [|? ? Hraw Hall']; subst.
    destruct (processRawRequest_built allowPlain compression h raw
                (frames ++ rest) Hdrain (Hraw _))
      as (h1 & Hstep & Hcalls & Hd & Hb & Hi & _).
    destruct (IH h1 Hd Hall') as (h' & Hloop & Hcalls' & Hd' & Hb' & Hi').
    exists h'. simpl. rewrite Hstep, Hloop. split; [done|].
    rewrite Hcalls', Hcalls, <- app_assoc. simpl.
    repeat split; congruence.
Qed.

(** A drain round over frames that are all built: the size is read, each
    frame counted is pulled, the context is switched once, and the frames
    pushed in the mean time are the ones the next round drains. *)
Lemma processRequestQueue_built h :
  Forall (builds decode (hasFlag conf ALLOW_PLAIN_LOG_REQUEST) (hasFlag conf COMPRESSION))
         (RequestQueue.drain (m_queue h)) →
  let total := RequestQueue.size (m_queue h) in
  queueCalls (trace (round h))
  = queueCalls (trace h)
    ++ EvQueueSize total :: replicate total EvQueuePull ++ [EvQueueSwitchContext]
  ∧ RequestQueue.drain (m_queue (round h)) = RequestQueue.backlog (m_queue h)
  ∧ RequestQueue.backlog (m_queue (round h)) = [].
Proof.
  intros Hall total. unfold processRequestQueue. fold total.
  destruct (drainLoop_built (hasFlag conf ALLOW_PLAIN_LOG_REQUEST)
              (hasFlag conf COMPRESSION) (RequestQueue.drain (m_queue h)) []
              (emit [EvQueueSize total] h))
    as (h' & Hloop & Hcalls & Hd & Hb & Hi); [by rewrite app_nil_r|done|].
  change (length (RequestQueue.drain (m_queue h))) with total in Hloop, Hcalls.
  rewrite Hloop. simpl.
  destruct (switchContext_swaps (m_queue h')) as [Hs1 Hs2].
  rewrite Hs1, Hs2, Hb, Hd, queueCalls_app, Hcalls. simpl.
  rewrite queueCalls_app. simpl. by rewrite <- !app_assoc.
Qed.

(** A drain round whose first frame cannot be built. *)
Lemma processRequestQueue_failed h raw rest :
  RequestQueue.drain (m_queue h) = raw :: rest →
  buildFailed (decode (env (tick h)) raw
                 (defaultStatus (hasFlag conf ALLOW_PLAIN_LOG_REQUEST))
                 (hasFlag conf COMPRESSION)).1 = true →
  trace (round h)
  = trace h ++ EvQueueSize (S (length rest)) :: sleepEvents conf
    ++ [EvQueuePull; EvHandleRaw; EvLog (VERBOSE RV_ERROR) "Failed: "]
  ∧ RequestQueue.drain (m_queue (round h)) = rest
  ∧ RequestQueue.backlog (m_queue (round h)) = RequestQueue.backlog (m_queue h)
  ∧ RequestQueue.activeIdx (m_queue (round h)) = RequestQueue.activeIdx (m_queue h).
Proof.
  intros Hdrain Hfail. unfold processRequestQueue, RequestQueue.size.
  rewrite Hdrain. simpl length.
  destruct (processRawRequest_failed (hasFlag conf ALLOW_PLAIN_LOG_REQUEST)
              (hasFlag conf COMPRESSION) (emit [EvQueueSize (S (length rest))] h)
              raw rest Hdrain Hfail)
    as (h' & Hstep & Htr & Hd & Hb & Hi).
  simpl. rewrite Hstep. rewrite Htr. simpl. rewrite <- app_assoc. done.
Qed.

Lemma processRequest_Accounted n request clientRef forceCheck :
  Accounted conf env
    (emitted (processRequest conf (env n) request clientRef forceCheck)).
Proof.
  intros r Hin.
  destruct (processRequest_dispatch_inv conf _ _ _ _ _ Hin)
    as (c & _ & -> & _ & Hchk).
  exists request, c. split; [done|].
  pose proof (processRequest_entered conf (env n) request clientRef forceCheck)
    as Hent.
  destruct (bypassChecksOf clientRef forceCheck); [by right|left].
  destruct (Hchk eq_refl) as (_ & Hpol & Hev). eauto.
Qed.

Lemma bulkItem_Accounted n request bs it :
  Accounted conf env (bulkItem conf deserialize (env n) request bs it).2.
Proof.
  destruct (isValid (deserialize it)) eqn:Hv.
  - rewrite (bulkItem_valid _ _ _ _ _ _ Hv). simpl. apply Accounted_app.
    + apply Accounted_quiet.
      by destruct (LogEvents_quiet _ (revalidate_events (env n) bs
        (setDateReceived (setIpAddr (deserialize it) (ipAddr request))
                         (dateReceived request)))) as (-> & _).
    + rewrite processItem_events. apply processRequest_Accounted.
  - rewrite (bulkItem_invalid _ _ _ _ _ _ Hv). by apply Accounted_quiet.
Qed.

Lemma bulkLoop_Accounted tick request bs j :
  Accounted conf env (bulkLoop conf deserialize env tick request bs j).2.
Proof.
  revert tick bs. induction j as [|it j IH]; intros tick bs.
  - by apply Accounted_quiet.
  - simpl. destruct (itemCount bs =? maxItemsInBulk conf).
    { by apply Accounted_quiet. }
    pose proof (bulkItem_Accounted tick request bs it) as Hit.
    destruct (bulkItem conf deserialize (env tick) request bs it) as [bs' ev].
    specialize (IH (S tick) bs').
    destruct (bulkLoop conf deserialize env (S tick) request bs' j) as [bs'' evs].
    simpl in *. by apply Accounted_app.
Qed.

Lemma processRawRequest_Accounted allowPlain compression h :
  ∃ evs, trace (step allowPlain compression h).1 = trace h ++ evs
         ∧ Accounted conf env evs.
Proof.
  unfold processRawRequest.
  set (h0 := if 0 <? dispatchDelay conf then emit _ h else h).
  assert (H0 : tick h0 = tick h ∧ trace h0 = trace h ++ sleepEvents conf).
  { subst h0. unfold sleepEvents. destruct (0 <? dispatchDelay conf); simpl; [done|].
    by rewrite app_nil_r. }
  destruct H0 as (Ht & Htr).
  assert (Hsleep : Accounted conf env (sleepEvents conf)).
  { apply Accounted_quiet. unfold sleepEvents. by destruct (0 <? dispatchDelay conf). }
  destruct (RequestQueue.pull (m_queue h0)) as [[raw q]|]; [|by eauto].
  destruct (decode _ raw _ _) as [request j].
  destruct (buildFailed request); simpl.
  { rewrite Htr, <- !app_assoc. eexists. split; [done|].
    apply Accounted_app; [done|]. by apply Accounted_quiet. }
  destruct (isBulk request).
  - destruct (hasFlag conf ALLOW_BULK_LOG_REQUEST); simpl.
    + pose proof (bulkLoop_Accounted (S (tick h0)) request
                    (bulkStart (env (tick h0)) request) j) as Hb.
      destruct (bulkLoop _ _ _ _ _ _ _) as [bs evs]. simpl in *.
      rewrite Htr, <- !app_assoc. eexists. split; [done|].
      apply Accounted_app; [done|]. apply Accounted_app; [|done].
      by apply Accounted_quiet.
    + rewrite Htr, <- !app_assoc. eexists. split; [done|].
      apply Accounted_app; [done|]. by apply Accounted_quiet.
  - simpl. rewrite Htr, <- !app_assoc. eexists. split; [done|].
    apply Accounted_app; [done|]. apply Accounted_app.
    + by apply Accounted_quiet.
    + apply processRequest_Accounted.
Qed.

Lemma drainLoop_Accounted allowPlain compression total h :
  ∃ evs, trace (loop allowPlain compression total h).1 = trace h ++ evs
         ∧ Accounted conf env evs.
Proof.
  revert h. induction total as [|n IH]; intros h.
  - exists []. simpl. split; [by rewrite app_nil_r|by apply Accounted_quiet].
  - simpl. destruct (processRawRequest_Accounted allowPlain compression h)
      as (ev1 & H1 & Ha1).
    destruct (step allowPlain compression h) as [h' []]; simpl in *.
    + destruct (IH h') as (ev2 & H2 & Ha2). exists (ev1 ++ ev2).
      split; [by rewrite H2, H1, app_assoc|by apply Accounted_app].
    + eauto.
Qed.

(** Every record a drain round hands to the engine is accounted for. *)
Lemma processRequestQueue_Accounted h :
  ∃ evs, trace (round h) = trace h ++ evs ∧ Accounted conf env evs.
Proof.
  unfold processRequestQueue.
  destruct (drainLoop_Accounted (hasFlag conf ALLOW_PLAIN_LOG_REQUEST)
              (hasFlag conf COMPRESSION) (RequestQueue.size (m_queue h))
              (emit [EvQueueSize (RequestQueue.size (m_queue h))] h))
    as (evs & Htr & Ha).
  destruct (drainLoop _ _ _ _) as [h' []]; simpl in *.
  - rewrite Htr, <- !app_assoc. eexists. split; [done|].
    apply Accounted_app; [by apply Accounted_quiet|].
    apply Accounted_app; [done|by apply Accounted_quiet].
  - rewrite Htr, <- !app_assoc. eexists. split; [done|].
    apply Accounted_app; [by apply Accounted_quiet|done].
Qed.

(** C8.  [handle] writes [STATUS_OK] on the session and then pushes the raw
    request, whatever the request is and without decoding it (the frame is
    decrypted and parsed by the dispatcher, after it is pulled); and a drain
    round writes no status code at all, so that no failure of a record is
    ever reported on a session. *)
Theorem handle_writes_STATUS_OK (h : Handler) (rawRequest : RawRequest) :
  trace (handle h rawRequest)
  = trace h ++ [EvWriteStatusCode Response.STATUS_OK; EvQueuePush]
  ∧ m_queue (handle h rawRequest) = RequestQueue.push rawRequest (m_queue h)
  ∧ statusWritten (trace (round (handle h rawRequest)))
    = statusWritten (trace h) ++ [Response.STATUS_OK].
Proof.
  split; [|split].
  - unfold handle. simpl. by rewrite <- app_assoc.
  - reflexivity.
  - rewrite processRequestQueue_statusWritten. unfold handle. simpl.
    by rewrite !statusWritten_app, app_nil_r.
Qed.

End Handler.

(** ** The concrete server *)

Section Concrete.

Import Scenario.

Local Abbreviation two_items second :=
  (trace (round env [bulk [item "app" "T" "one"; second]])).

(** Scenario 1: the record is dispatched with the client attached. *)
Example happy_path_single :
  dispatched (trace (round env [single hello])) = [hello]
  ∧ clientId hello = "c1".
Proof. by vm_compute. Qed.

(** The boundaries of section 8: a client is dead at [dateCreated + age] and
    alive one second earlier; a token issued at 0 for 60 s is valid at 59 and
    not at 60. *)
Example alive_boundary :
  isAlive c1 1149 = true ∧ isAlive c1 1150 = false
  ∧ tokenAlive {| value := "T"; issuedAt := 0; lifeSeconds := 60 |} 59 = true
  ∧ tokenAlive {| value := "T"; issuedAt := 0; lifeSeconds := 60 |} 60 = false.
Proof. by vm_compute. Qed.

(** Scenario 5 in small: three frames are in the dispatch buffer, two more
    are handled before the round; the round counts three frames, pulls
    three, switches the context once, and leaves the two others for the
    next round. *)
Example queue_swap :
  let h := handle (handle (holding [single hello; single hello; single hello])
                          (single garbled)) (single hello) in
  let h' := processRequestQueue conf deserialize env decode h in
  queueCalls (trace h')
  = [EvQueuePush; EvQueuePush; EvQueueSize 3; EvQueuePull; EvQueuePull;
     EvQueuePull; EvQueueSwitchContext]
  ∧ dispatched (trace h') = [hello; hello; hello]
  ∧ RequestQueue.drain (m_queue h') = [single garbled; single hello]
  ∧ RequestQueue.backlog (m_queue h') = [].
Proof. by vm_compute. Qed.

(** The same round through [processRequestQueue_built]. *)
Example complete_round :
  let h := holding [single hello; single hello] in
  queueCalls (trace (processRequestQueue conf deserialize env decode h))
  = [EvQueueSize 2; EvQueuePull; EvQueuePull; EvQueueSwitchContext].
Proof.
  intros h.
  destruct (processRequestQueue_built conf deserialize env decode h) as [Hcalls _].
  - repeat constructor.
  - exact Hcalls.
Qed.

Lemma isRequestAllowed_iff_witness :
  client hello = Some c1
  ∧ ((isRequestAllowed conf world hello).1 = true
     ↔ (ALLOW_UNKNOWN_LOGGERS ∈ flags conf
        ∨ is_Some (knownLoggers conf !! loggerId hello))
       ∧ (loggerId hello ≠ "residue")
       ∧ (loggerId hello ∉ blacklist conf)
       ∧ (tokenNotRequired conf (loggerId hello) = true
          ∨ validate (registry world) (id c1) (loggerId hello) (token hello)
                     (dateReceived hello) = true)).
Proof.
  split; [reflexivity|].
  apply (isRequestAllowed_iff conf world hello c1). reflexivity.
Defined.

Lemma isRequestAllowed_no_client_witness :
  client (item "app" "T" "one") = None
  ∧ (isRequestAllowed conf world (item "app" "T" "one")).1 = false.
Proof.
  split; [reflexivity|].
  apply (isRequestAllowed_no_client conf world (item "app" "T" "one")).
  reflexivity.
Defined.

Lemma hello_dispatched :
  EvDispatch hello ∈ emitted (processRequest conf world hello None true).
Proof. vm_compute. in_literal. Defined.

Lemma processRequest_checked_dispatch_allowed_witness :
  EvDispatch hello ∈ emitted (processRequest conf world hello None true)
  ∧ (isRequestAllowed conf world hello).1 = true
  ∧ EvIsRequestAllowed hello true
      ∈ emitted (processRequest conf world hello None true).
Proof.
  split; [exact hello_dispatched|].
  apply (processRequest_checked_dispatch_allowed conf world hello None true hello
           hello_dispatched).
  left. reflexivity.
Defined.

Lemma token_validated_at_dateReceived_witness :
  EvDispatch hello ∈ emitted (processRequest conf world hello None true)
  ∧ (true = true ∨ retained (@None (option Client)) = None)
  ∧ dateReceived hello = 1100
  ∧ ∃ c, client hello = Some c
         ∧ isValidToken conf c (loggerId hello) (token hello) (registry world)
                        (dateReceived hello) = true.
Proof.
  split; [exact hello_dispatched|]. split; [by left|].
  destruct (token_validated_at_dateReceived conf (λ j : LogRequest, j) world
              hello None true hello hello_dispatched (or_introl eq_refl))
    as (Hdate & Htok & _).
  split; [exact Hdate|exact Htok].
Defined.

Lemma processRequest_client_attached_witness :
  let res := processRequest conf world Cases.first (Some (Some c1)) true in
  clientId Cases.first = ""
  ∧ client Cases.first = None
  ∧ clientId (requestOut res) = "c1"
  ∧ client (requestOut res) = Some c1
  ∧ dispatched (emitted res) = [attach Cases.first c1].
Proof.
  intros res. split; [reflexivity|]. split; [reflexivity|].
  destruct (processRequest_client_attached conf world Cases.first
              (Some (Some c1)) true)
    as (_ & Hid & Hcl & _ & _ & Hd).
  split; [exact Hid|]. split; [exact Hcl|exact Hd].
Defined.


Lemma bulkLoop_maxItemsInBulk_witness :
  let full := [item "app" "T" "one"; item "app" "T" "two"] in
  let long := full ++ [item "app" "T" "three"] in
  (length full ≤ maxItemsInBulk conf
   ∧ bulkOverflow
       ∉ (bulkLoop conf deserialize env 1 envelope (bulkStart world envelope) full).2)
  ∧ (maxItemsInBulk conf < length long
     ∧ bulkOverflow
         ∈ (bulkLoop conf deserialize env 1 envelope (bulkStart world envelope) long).2).
Proof.
  intros full long. split.
  - split; [vm_compute; lia|].
    destruct (bulkLoop_maxItemsInBulk conf deserialize env 1 world envelope full)
      as (_ & _ & _ & Hfull & _).
    apply Hfull. vm_compute. lia.
  - split; [vm_compute; lia|].
    destruct (bulkLoop_maxItemsInBulk conf deserialize env 1 world envelope long)
      as (_ & _ & _ & _ & Hlong).
    apply Hlong; [repeat constructor|vm_compute; lia].
Defined.

(** C1 fails as stated: the second item of this bulk is processed for the
    retained client, and reaches the engine although [isRequestAllowed]
    rejects it, without [isRequestAllowed] having been called on it. *)
Lemma bypassed_item_not_allowed :
  ∃ r, EvDispatch r ∈ two_items (item "residue" "" "two")
       ∧ loggerId r = "residue"
       ∧ (isRequestAllowed conf world r).1 = false
       ∧ ∀ b, EvIsRequestAllowed r b ∉ two_items (item "residue" "" "two").
Proof.
  exists (attach (setDateReceived (setIpAddr (item "residue" "" "two") "10.0.0.1") 1100) c1).
  split; [vm_compute; in_literal|]. split; [reflexivity|]. split; [reflexivity|].
  intros b Hin. vm_compute in Hin. not_in_literal Hin.
Qed.

(** C3 fails as stated: the second item of this bulk reaches the engine with
    a token that is not valid at its [dateReceived]; no token was validated
    for it. *)
Lemma bypassed_item_token_not_validated :
  ∃ r, EvDispatch r ∈ two_items (item "app" "old" "two")
       ∧ client r = Some c1
       ∧ token r = "old"
       ∧ isValidToken conf c1 (loggerId r) (token r) (registry world)
                      (dateReceived r) = false.
Proof.
  exists (attach (setDateReceived (setIpAddr (item "app" "old" "two") "10.0.0.1") 1100) c1).
  split; [vm_compute; in_literal|]. by vm_compute.
Qed.

(** C10 fails as stated: for the first item of a bulk received when the age
    of [c1] has just elapsed, [processRequest] resolves [c1], the retained
    client, finds it dead and returns; the [clientId] of the request is not
    overwritten and no client is attached to it. *)
Lemma dead_client_request_untouched :
  let res :=
    processRequest conf Cases.worldLate Cases.lateFirst (Some (Some c1)) true in
  (resolveClient conf Cases.worldLate Cases.lateFirst (Some (Some c1))).1
  = Some c1
  ∧ clientRefOut res = Some c1
  ∧ accepted res = false
  ∧ requestOut res = Cases.lateFirst
  ∧ clientId (requestOut res) = ""
  ∧ clientId (requestOut res) ≠ id c1
  ∧ client (requestOut res) = None.
Proof. by vm_compute. Qed.


(** C7 fails as stated: with a cap of two, this bulk of three elements, one
    of them invalid, logs no overflow, and the two requests processed are not
    its first two elements. *)
Lemma long_bulk_without_overflow :
  let j := [item "app" "T" "one"; invalidItem; item "app" "T" "two"] in
  let tr := trace (round env [bulk j]) in
  maxItemsInBulk conf < length j
  ∧ (bulkOverflow ∉ tr)
  ∧ payload <$> processed tr = [("app", "T", "one"); ("app", "T", "two")]
  ∧ payload <$> take (maxItemsInBulk conf) j = [("app", "T", "one"); ("", "", "")].
Proof.
  intros j tr. split; [vm_compute; lia|]. split.
  - intros Hin. vm_compute in Hin. not_in_literal Hin.
  - by vm_compute.
Qed.

(** C4: the frame that cannot be decrypted is logged and the function
    returns: the valid frame drained after it is not processed in this round
    and stays in the buffer. *)
Theorem failed_frame_ends_round :
  let h := round env [single garbled; single hello] in
  trace h = [EvQueueSize 2; EvQueuePull; EvHandleRaw;
             EvLog (VERBOSE RV_ERROR) "Failed: "]
  ∧ processed (trace h) = []
  ∧ RequestQueue.drain (m_queue h) = [single hello].
Proof. by vm_compute. Qed.

(** C5: in a round where a frame cannot be built, three frames are counted,
    two are pulled, and [switchContext] is not called. *)
Theorem failed_frame_skips_switchContext :
  let h := round env [single hello; single garbled; single hello] in
  queueCalls (trace h) = [EvQueueSize 3; EvQueuePull; EvQueuePull]
  ∧ dispatched (trace h) = [hello]
  ∧ RequestQueue.activeIdx (m_queue h) = false
  ∧ RequestQueue.drain (m_queue h) = [single hello].
Proof. by vm_compute. Qed.

End Concrete.

(** ** src/utils/utils.h *)

Section UtilsFacts.

Import Utils.

#[local] Arguments String.append !s1 s2 /.

Lemma list_ascii_of_string_app a b :
  String.list_ascii_of_string (a +:+ b)
  = String.list_ascii_of_string a ++ String.list_ascii_of_string b.
Proof. induction a as [|c a IH]; simpl; [done|by rewrite IH]. Qed.

Lemma contains_app a b c : contains (a +:+ b) c = contains a c || contains b c.
Proof. unfold contains. by rewrite list_ascii_of_string_app, existsb_app. Qed.

Lemma contains_elem set c : contains set c = true ↔ c ∈ String.list_ascii_of_string set.
Proof.
  unfold contains. rewrite existsb_exists. split.
  - intros (x & Hin & ->%Ascii.eqb_eq). by apply list_elem_of_In.
  - intros Hin. exists c. split; [by apply list_elem_of_In|apply Ascii.eqb_refl].
Qed.

(** The set of characters written in [isAlphaNumeric] is the letters and the
    digits. *)
Lemma contains_alphanumerics c :
  contains "abcdefghijklmnopqrstuvwxyzABCDEFGHIJKLMNOPQRSTUVWXYZ0123456789" c
  = isalnum c.
Proof. by destruct c as [[] [] [] [] [] [] [] []]. Qed.

Lemma find_first_not_of_from_None pos str set :
  find_first_not_of_from pos str set = None
  ↔ Forall (λ c, contains set c = true) (String.list_ascii_of_string str).
Proof.
  revert pos. induction str as [|c str IH]; intros pos; simpl.
  - split; [constructor|done].
  - destruct (contains set c) eqn:Hc.
    + rewrite IH. split; [by constructor|by inversion 1].
    + split; [done|]. inversion 1; congruence.
Qed.

(** The characters [isAlphaNumeric] accepts. *)
Lemma isAlphaNumeric_chars str exceptions :
  isAlphaNumeric str exceptions = true
  ↔ Forall (λ c, isalnum c = true ∨ c ∈ String.list_ascii_of_string exceptions)
           (String.list_ascii_of_string str).
Proof.
  unfold isAlphaNumeric, find_first_not_of.
  rewrite bool_decide_eq_true, find_first_not_of_from_None.
  apply Forall_iff. intros c.
  by rewrite contains_app, orb_true_iff, contains_alphanumerics, contains_elem.
Qed.

(** X1.  [isAlphaNumeric] holds exactly when every character of the string is a
    letter, a digit or one of the exceptions. *)
Theorem isAlphaNumeric_iff str exceptions :
  isAlphaNumeric str exceptions = true
  ↔ Forall (λ c, isalnum c = true ∨ c ∈ String.list_ascii_of_string exceptions)
           (String.list_ascii_of_string str).
Proof. exact (isAlphaNumeric_chars str exceptions). Qed.

(** X2.  The empty string is alphanumeric, a concatenation is when both parts
    are, and more exceptions never reject a string. *)
Theorem isAlphaNumeric_app a b exceptions more :
  isAlphaNumeric "" exceptions = true
  ∧ isAlphaNumeric (a +:+ b) exceptions
    = isAlphaNumeric a exceptions && isAlphaNumeric b exceptions
  ∧ (isAlphaNumeric a exceptions = true →
     isAlphaNumeric a (exceptions +:+ more) = true).
Proof.
  split; [done|]. split.
  - apply eq_true_iff_eq. rewrite andb_true_iff, !isAlphaNumeric_chars.
    rewrite list_ascii_of_string_app. apply Forall_app.
  - rewrite !isAlphaNumeric_chars. intros Hall.
    eapply Forall_impl; [exact Hall|]. intros c [?|Hin]; [by left|].
    right. rewrite list_ascii_of_string_app, elem_of_app. by left.
Qed.

Lemma compare_refl str : String.compare str str = Eq.
Proof.
  induction str as [|c str IH]; simpl; [done|].
  unfold Ascii.compare. by rewrite N.compare_refl.
Qed.

Lemma compare_is_0_eq str pos len other :
  compare_is_0 str pos len other = true ↔ String.substring pos len str = other.
Proof.
  unfold compare_is_0. split.
  - destruct (String.compare (String.substring pos len str) other) eqn:Hcmp;
      [|done..]. intros _. by apply String.compare_eq_iff.
  - intros <-. by rewrite compare_refl.
Qed.

Lemma length_append a b :
  String.length (a +:+ b) = String.length a + String.length b.
Proof. induction a as [|c a IH]; simpl; [done|by rewrite IH]. Qed.

Lemma substring_prefix a b :
  String.substring 0 (String.length a) (a +:+ b) = a.
Proof. induction a as [|c a IH]; simpl; [by destruct b|by rewrite IH]. Qed.

Lemma substring_suffix a b :
  String.substring (String.length a) (String.length b) (a +:+ b) = b.
Proof.
  induction a as [|c a IH]; simpl; [|done].
  induction b as [|c b IH]; simpl in *; [done|by rewrite IH].
Qed.

(** A string is its first [n] characters followed by the others. *)
Lemma substring_split n str :
  n ≤ String.length str →
  str = String.substring 0 n str
        +:+ String.substring n (String.length str - n) str.
Proof.
  revert n. induction str as [|c str IH]; intros n Hn; simpl in *.
  - by destruct n.
  - destruct n as [|n]; simpl.
    + f_equal. clear. induction str as [|c' str IH]; simpl; [done|by rewrite <- IH].
    + f_equal. apply IH. lia.
Qed.

(** [startsWith] is the prefix relation. *)
Lemma startsWith_prefix str start :
  startsWith str start = true ↔ ∃ rest, str = start +:+ rest.
Proof.
  unfold startsWith. rewrite andb_true_iff, Nat.leb_le, compare_is_0_eq. split.
  - intros [Hlen Hsub].
    exists (String.substring (String.length start)
              (String.length str - String.length start) str).
    pose proof (substring_split (String.length start) str Hlen) as Hs.
    by rewrite Hsub in Hs.
  - intros [rest ->]. rewrite length_append, substring_prefix. split; [lia|done].
Qed.

(** X3.  [startsWith] holds exactly when the string is [start] followed by
    something. *)
Theorem startsWith_iff str start :
  startsWith str start = true ↔ ∃ rest, str = start +:+ rest.
Proof. exact (startsWith_prefix str start). Qed.

(** [endsWith] is the suffix relation. *)
Lemma endsWith_suffix str end_ :
  endsWith str end_ = true ↔ ∃ front, str = front +:+ end_.
Proof.
  unfold endsWith. rewrite andb_true_iff, Nat.leb_le, compare_is_0_eq. split.
  - intros [Hlen Hsub].
    exists (String.substring 0 (String.length str - String.length end_) str).
    pose proof (substring_split (String.length str - String.length end_) str
                  ltac:(lia)) as Hs.
    replace (String.length str - (String.length str - String.length end_))
      with (String.length end_) in Hs by lia.
    by rewrite Hsub in Hs.
  - intros [front ->]. rewrite length_append.
    replace (String.length front + String.length end_ - String.length end_)
      with (String.length front) by lia.
    rewrite substring_suffix. split; [lia|done].
Qed.


Lemma toupper_tolower c :
  toupper (toupper c) = toupper c
  ∧ tolower (tolower c) = tolower c
  ∧ tolower (toupper c) = tolower c
  ∧ toupper (tolower c) = toupper c
  ∧ isalnum (toupper c) = isalnum c
  ∧ isalnum (tolower c) = isalnum c.
Proof. by destruct c as [[] [] [] [] [] [] [] []]. Qed.

(** X5.  Changing the case keeps the length, is idempotent, forgets the case the
    string had before, and keeps a string of letters and digits one. *)
Theorem toUpper_toLower str :
  String.length (toUpper str) = String.length str
  ∧ String.length (toLower str) = String.length str
  ∧ toUpper (toUpper str) = toUpper str
  ∧ toLower (toLower str) = toLower str
  ∧ toLower (toUpper str) = toLower str
  ∧ toUpper (toLower str) = toUpper str
  ∧ isAlphaNumeric (toUpper str) "" = isAlphaNumeric str ""
  ∧ isAlphaNumeric (toLower str) "" = isAlphaNumeric str "".
Proof.
  unfold toUpper, toLower.
  repeat split;
    try (induction str as [|c str IH]; simpl; [done|];
         destruct (toupper_tolower c) as (? & ? & ? & ? & ? & ?); congruence).
  - apply eq_true_iff_eq. rewrite !isAlphaNumeric_chars. simpl.
    induction str as [|c str IH]; simpl; [done|].
    rewrite !Forall_cons, IH.
    destruct (toupper_tolower c) as (_ & _ & _ & _ & -> & _).
    by rewrite !elem_of_nil.
  - apply eq_true_iff_eq. rewrite !isAlphaNumeric_chars. simpl.
    induction str as [|c str IH]; simpl; [done|].
    rewrite !Forall_cons, IH.
    destruct (toupper_tolower c) as (_ & _ & _ & _ & _ & ->).
    by rewrite !elem_of_nil.
Qed.

End UtilsFacts.

(** ** processRequest: acceptance, rejection and side effects *)

Section ProcessRequestMore.

Variable conf : Configuration.

(** X6.  [processRequest] returns true exactly when the request is valid, a
    client is resolved for it and either the checks are bypassed or the
    client is alive at [dateReceived] and the policy allows the request with
    that client attached; it then dispatches that one record, and nothing
    otherwise.  Accepted or not, [*clientRef] holds the resolved client on
    return. *)
Theorem processRequest_accepted_iff w request clientRef forceCheck :
  let res := processRequest conf w request clientRef forceCheck in
  (accepted res = true
   ↔ isValid request = true
     ∧ ∃ c, (resolveClient conf w request clientRef).1 = Some c
            ∧ (bypassChecksOf clientRef forceCheck = true
               ∨ (isAlive c (dateReceived request) = true
                  ∧ (isRequestAllowed conf w (attach request c)).1 = true)))
  ∧ dispatched (emitted res) = (if accepted res then [requestOut res] else [])
  ∧ clientRefOut res = (resolveClient conf w request clientRef).1.
Proof.
  intros res. split; [|split].
  - subst res. unfold processRequest, attach.
    destruct (resolveClient conf w request clientRef) as [[c|] ev1]; simpl.
    + destruct (bypassChecksOf clientRef forceCheck); simpl.
      * destruct (isValid request); simpl.
        -- split; [intros _; split; [done|]; exists c; by auto|done].
        -- split; [done|]. by intros (? & _).
      * destruct (isAlive c (dateReceived request)) eqn:Halive; simpl.
        -- destruct (isValid request); simpl.
           ++ destruct (isRequestAllowed conf w _) as [[|] ev3] eqn:Hpol; simpl.
              ** split; [intros _; split; [done|]; exists c|done].
                 split; [done|]. right. by rewrite Hpol.
              ** split; [done|]. intros (_ & c' & [= <-] & [?|[_ Hpol']]); [done|].
                 by rewrite Hpol in Hpol'.
           ++ split; [done|]. by intros (? & _).
        -- split; [done|]. intros (_ & c' & [= <-] & [?|[? _]]); [done|].
           congruence.
    + split; [done|]. by intros (_ & c & ? & _).
  - apply processRequest_dispatched.
  - apply processRequest_clientRefOut.
Qed.

(** X7.  A request with no client and an empty [clientId], processed without a
    retained client, is rejected without the registry being consulted: the
    two reasons are logged and [*clientRef] is null on return. *)
Theorem processRequest_empty_clientId w request clientRef forceCheck :
  retained clientRef = None →
  client request = None →
  clientId request = "" →
  let res := processRequest conf w request clientRef forceCheck in
  accepted res = false
  ∧ clientRefOut res = None
  ∧ emitted res
    = EvProcessRequest request false
      :: EvLog (VERBOSE RV_ERROR) "Invalid request. No client ID found"
      :: EvLog (VERBOSE RV_ERROR) "Invalid request. No client found"
      :: (if hasFlag conf ALLOW_PLAIN_LOG_REQUEST
          then [EvLog (VERBOSE RV_ERROR)
                  "Check if logger has ALLOW_PLAIN_LOG_REQUEST option set and it contains client ID if needed."]
          else []).
Proof.
  intros Hret Hcl Hid res. subst res.
  unfold processRequest, resolveClient, bypassChecksOf, plainLookup.
  rewrite Hret, Hcl, Hid. simpl.
  rewrite andb_false_r. simpl. rewrite andb_false_r. done.
Qed.

(** X8.  The user of an unknown logger is updated exactly when the checks are
    performed for a known client that is alive, the server allows unknown
    loggers and the logger is unknown; this is decided before the request is
    validated by the policy, and holds whether it is then dispatched or
    not. *)
Theorem processRequest_updates_unknown_logger w request clientRef forceCheck l r :
  EvUpdateUnknownLoggerUser l r
    ∈ emitted (processRequest conf w request clientRef forceCheck)
  ↔ bypassChecksOf clientRef forceCheck = false
    ∧ ∃ c, (resolveClient conf w request clientRef).1 = Some c
           ∧ isAlive c (dateReceived request) = true
           ∧ isKnown c = true
           ∧ hasFlag conf ALLOW_UNKNOWN_LOGGERS = true
           ∧ isKnownLogger conf (loggerId request) = false
           ∧ l = loggerId request
           ∧ r = attach request c.
Proof.
  pose proof (resolveClient_events conf w request clientRef) as Hev1.
  unfold processRequest, attach.
  destruct (resolveClient conf w request clientRef) as [[c|] ev1]; simpl in *.
  - assert (Hn1 : EvUpdateUnknownLoggerUser l r ∉ ev1).
    { intros Hin. destruct Hev1; not_in_literal Hin. }
    destruct (bypassChecksOf clientRef forceCheck); simpl.
    { split; [|by intros (? & _)]. intros Hin.
      destruct (isValid request); simpl in Hin; decompose_in Hin;
        first [discriminate|by destruct (Hn1 Hin)]. }
    pose proof (isRequestAllowed_events conf w
                  (setClient (setClientId request (id c)) (Some c))) as Hev3.
    destruct (isRequestAllowed conf w _) as [allowed ev3]. simpl in Hev3.
    assert (Hn3 : EvUpdateUnknownLoggerUser l r ∉ ev3).
    { intros Hin. destruct (LogEvents_elem _ _ Hev3 Hin) as (? & ? & ?).
      discriminate. }
    destruct (isAlive c (dateReceived request)) eqn:Halive; simpl.
    + destruct (isKnown c) eqn:Hk, (hasFlag conf ALLOW_UNKNOWN_LOGGERS) eqn:Hf,
               (isKnownLogger conf (loggerId request)) eqn:Hl; simpl;
        (split;
         [intros Hin; destruct (isValid request), allowed; simpl in Hin;
          decompose_in Hin;
          first [discriminate|by destruct (Hn1 Hin)|by destruct (Hn3 Hin)
                |inversion Hin; subst; split; [done|]; exists c; by auto 10]
         |intros (_ & c' & [= <-] & _ & Hk' & Hf' & Hl' & -> & ->);
          first [congruence
                |destruct (isValid request), allowed; simpl;
                 apply elem_of_cons; right; apply elem_of_app; right;
                 apply list_elem_of_here]]).
    + split; [|intros (_ & c' & [= <-] & ? & _); congruence]. intros Hin.
      decompose_in Hin; first [discriminate|by destruct (Hn1 Hin)].
  - split; [|by intros (_ & c & ? & _)]. intros Hin.
    assert (Hn1 : EvUpdateUnknownLoggerUser l r ∉ ev1).
    { intros Hin'. destruct Hev1; not_in_literal Hin'. }
    destruct (hasFlag conf ALLOW_PLAIN_LOG_REQUEST); simpl in Hin;
      decompose_in Hin; first [discriminate|by destruct (Hn1 Hin)].
Qed.

End ProcessRequestMore.

(** ** The bulk loop: retained client and inherited fields *)

Section BulkMore.

Variable conf : Configuration.
Context {Json : Type}.
Variable deserialize : Json → LogRequest.
Variable env : nat → World.

(** A valid request processed for a retained client without forced
    validation is dispatched at once. *)
Lemma processRequest_retained w request c :
  isValid request = true →
  processRequest conf w request (Some (Some c)) false
  = {| accepted := true; clientRefOut := Some c;
       requestOut := attach request c;
       emitted := [EvProcessRequest request true;
                   EvDispatch (attach request c)] |}.
Proof.
  intros Hv. unfold processRequest, resolveClient, bypassChecksOf, attach.
  simpl. by rewrite Hv.
Qed.

Lemma revalidate_quiet w bs requestItem :
  match clientIntegrityTask (registry w) with
  | Some lastExecution => lastExecution < lastClientValidation bs
  | None => True
  end →
  revalidate w bs requestItem = (bs, requestItem, []).
Proof.
  intros Hq. unfold revalidate, integrityTaskRan.
  destruct (clientIntegrityTask (registry w)) as [t|].
  - rewrite (proj2 (Nat.leb_gt _ _) Hq). by rewrite andb_false_r.
  - by rewrite andb_false_r.
Qed.

Lemma revalidate_fields w bs requestItem :
  ipAddr (revalidate w bs requestItem).1.2 = ipAddr requestItem
  ∧ isValid (revalidate w bs requestItem).1.2 = isValid requestItem.
Proof. unfold revalidate. by destruct (integrityTaskRan w bs). Qed.

(** X9.  The loop keeps its locals consistent: from the start of a bulk on,
    whenever validation is not forced for the next item, a client is retained
    and [lastKnownClientId], the id restored into an item after an integrity
    sweep, is the id of that client. *)
Theorem bulkLoop_Consistent w request :
  Consistent (bulkStart w request)
  ∧ (∀ w' bs it,
       Consistent bs → Consistent (bulkItem conf deserialize w' request bs it).1)
  ∧ (∀ tick bs j,
       Consistent bs →
       Consistent (bulkLoop conf deserialize env tick request bs j).1).
Proof.
  assert (Hitem : ∀ w' bs it,
            Consistent bs →
            Consistent (bulkItem conf deserialize w' request bs it).1).
  { intros w' bs it Hbs. destruct (isValid (deserialize it)) eqn:Hv.
    - rewrite (bulkItem_valid _ _ _ _ _ _ Hv). simpl. unfold processItem.
      match goal with
      | |- context [processRequest conf ?w0 ?r0 ?cr0 ?f0] =>
          destruct (processRequest_outcome conf w0 r0 cr0 f0)
            as [byp cl out ev1 ev _ _ _ _ _ _
               |c ev1 ev2 ev3 _ _ _ _ _ _ _ _ _
               |c _ _ _]
      end; simpl; first [done|by exists c].
    - by rewrite (bulkItem_invalid _ _ _ _ _ _ Hv). }
  split; [done|]. split; [done|].
  intros tick bs j. revert tick bs.
  induction j as [|it j IH]; intros tick bs Hbs; [done|].
  simpl. destruct (itemCount bs =? maxItemsInBulk conf); [done|].
  specialize (Hitem (env tick) bs it Hbs).
  destruct (bulkItem conf deserialize (env tick) request bs it) as [bs' ev].
  specialize (IH (S tick) bs' Hitem).
  by destruct (bulkLoop conf deserialize env (S tick) request bs' j).
Qed.

(** X10.  Once an item has been accepted for a client, and as long as no integrity
    task execution is observed at or after [lastClientValidation], every
    following valid element up to the cap is dispatched for that client, with
    the address and the date of the envelope, without the policy evaluator
    or the registry being consulted. *)
Theorem bulkLoop_retained_client tick request bs c j :
  forceClientValidation bs = false →
  currentClient bs = Some c →
  itemCount bs ≤ maxItemsInBulk conf →
  taskQuiet env tick (lastClientValidation bs) →
  let evs := (bulkLoop conf deserialize env tick request bs j).2 in
  dispatched evs
  = (λ r, attach (inherit request r) c)
      <$> take (maxItemsInBulk conf - itemCount bs) (validItems deserialize j)
  ∧ (∀ r b, EvIsRequestAllowed r b ∉ evs)
  ∧ (∀ cid found, EvFindClient cid found ∉ evs).
Proof.
  revert tick bs. induction j as [|it j IH]; intros tick bs Hf Hc Hle Hq evs.
  - subst evs. simpl. change (validItems deserialize []) with (@nil LogRequest).
    rewrite take_nil. split; [done|].
    split; intros ? ? Hin; by apply elem_of_nil in Hin.
  - subst evs. simpl.
    destruct (Nat.eqb_spec (itemCount bs) (maxItemsInBulk conf)) as [Heq|Hne].
    { simpl. rewrite Heq, Nat.sub_diag. split; [done|].
      split; intros ? ? Hin; unfold bulkOverflow in Hin; not_in_literal Hin. }
    rewrite validItems_cons. destruct (isValid (deserialize it)) eqn:Hv.
    + rewrite (bulkItem_valid _ _ _ _ _ _ Hv). simpl.
      rewrite (revalidate_quiet _ _ _ (Hq tick (Nat.le_refl _))). simpl.
      unfold processItem. rewrite Hf, Hc.
      rewrite processRequest_retained by done. simpl.
      set (bs' := {| itemCount := S (itemCount bs);
                     lastClientValidation := lastClientValidation bs;
                     currentClient := Some c;
                     lastKnownClientId := id c;
                     forceClientValidation := false |}).
      destruct (IH (S tick) bs' eq_refl eq_refl ltac:(simpl; lia)
                  (λ n Hn, Hq n ltac:(lia))) as (Hd & Hp & Hl).
      destruct (bulkLoop conf deserialize env (S tick) request bs' j) as [bs'' evs].
      simpl in *. rewrite Hd.
      replace (maxItemsInBulk conf - itemCount bs)
        with (S (maxItemsInBulk conf - S (itemCount bs))) by lia.
      split; [done|]. split; intros ? ? Hin.
      * decompose_in Hin; first [discriminate|by apply Hp in Hin].
      * decompose_in Hin; first [discriminate|by apply Hl in Hin].
    + rewrite (bulkItem_invalid _ _ _ _ _ _ Hv).
      destruct (IH (S tick) bs Hf Hc Hle (λ n Hn, Hq n ltac:(lia)))
        as (Hd & Hp & Hl).
      destruct (bulkLoop conf deserialize env (S tick) request bs j) as [bs'' evs].
      simpl in *. split; [done|]. split; intros ? ? Hin.
      * decompose_in Hin; first [discriminate|by apply Hp in Hin].
      * decompose_in Hin; first [discriminate|by apply Hl in Hin].
Qed.

(** X11.  Every record a bulk hands to the engine is valid, carries a client and
    its id, has the address and the date of the envelope, and has the logger,
    token and message of one of the elements of the array. *)
Theorem bulkLoop_dispatched_inherit tick request bs j r :
  EvDispatch r ∈ (bulkLoop conf deserialize env tick request bs j).2 →
  ipAddr r = ipAddr request
  ∧ dateReceived r = dateReceived request
  ∧ isValid r = true
  ∧ (∃ c, client r = Some c ∧ clientId r = id c)
  ∧ ∃ it, it ∈ j ∧ payload r = payload (deserialize it).
Proof.
  revert tick bs. induction j as [|it j IH]; intros tick bs Hin.
  - by apply elem_of_nil in Hin.
  - simpl in Hin. destruct (itemCount bs =? maxItemsInBulk conf).
    { unfold bulkOverflow in Hin. not_in_literal Hin. }
    assert (Hitem : EvDispatch r
                      ∈ (bulkItem conf deserialize (env tick) request bs it).2 →
                    ipAddr r = ipAddr request
                    ∧ dateReceived r = dateReceived request
                    ∧ isValid r = true
                    ∧ (∃ c, client r = Some c ∧ clientId r = id c)
                    ∧ payload r = payload (deserialize it)).
    { intros Hit. destruct (isValid (deserialize it)) eqn:Hv.
      - rewrite (bulkItem_valid _ _ _ _ _ _ Hv) in Hit. simpl in Hit.
        apply elem_of_app in Hit as [Hit|Hit].
        { destruct (LogEvents_elem _ _ (revalidate_events _ _ _) Hit)
            as (? & ? & ?); discriminate. }
        rewrite processItem_events in Hit.
        destruct (processRequest_dispatch_inv conf _ _ _ _ _ Hit)
          as (c & _ & -> & Hvalid & _).
        simpl.
        destruct (revalidate_payload (env tick) bs
                    (setDateReceived (setIpAddr (deserialize it) (ipAddr request))
                                     (dateReceived request)))
          as (Hpay & Hdate & _).
        destruct (revalidate_fields (env tick) bs
                    (setDateReceived (setIpAddr (deserialize it) (ipAddr request))
                                     (dateReceived request)))
          as (Hip & _).
        rewrite Hip, Hdate. repeat split; [done|by exists c|].
        unfold payload in *. simpl in *. congruence.
      - rewrite (bulkItem_invalid _ _ _ _ _ _ Hv) in Hit. not_in_literal Hit. }
    destruct (bulkItem conf deserialize (env tick) request bs it) as [bs' ev].
    specialize (IH (S tick) bs').
    destruct (bulkLoop conf deserialize env (S tick) request bs' j) as [bs'' evs].
    simpl in *. apply elem_of_app in Hin as [Hin|Hin].
    + destruct (Hitem Hin) as (? & ? & ? & ? & ?). repeat split; auto.
      exists it. split; [apply list_elem_of_here|done].
    + destruct (IH Hin) as (? & ? & ? & ? & it' & ? & ?). repeat split; auto.
      exists it'. split; [by apply list_elem_of_further|done].
Qed.

(** A call that resolves no client, or that performs the checks for a
    client that is not alive, is rejected. *)
Lemma processRequest_rejected w request clientRef forceCheck :
  (resolveClient conf w request clientRef).1 = None
  ∨ (bypassChecksOf clientRef forceCheck = false
     ∧ ∃ c, (resolveClient conf w request clientRef).1 = Some c
            ∧ isAlive c (dateReceived request) = false) →
  accepted (processRequest conf w request clientRef forceCheck) = false.
Proof.
  unfold processRequest.
  destruct (resolveClient conf w request clientRef) as [[c|] ev1]; simpl.
  - intros [?|(-> & c' & [= <-] & ->)]; done.
  - done.
Qed.

Lemma revalidate_forced w bs requestItem :
  forceClientValidation bs = true →
  revalidate w bs requestItem = (bs, requestItem, []).
Proof. intros Hf. unfold revalidate, integrityTaskRan. by rewrite Hf. Qed.

(** One element processed with no retained client on a server without plain
    requests: nothing is dispatched and no client is retained. *)
Lemma bulkItem_no_client w request bs it :
  hasFlag conf ALLOW_PLAIN_LOG_REQUEST = false →
  client (deserialize it) = None →
  currentClient bs = None
  ∨ (forceClientValidation bs = false
     ∧ ∃ t, clientIntegrityTask (registry w) = Some t
            ∧ lastClientValidation bs ≤ t) →
  dispatched (bulkItem conf deserialize w request bs it).2 = []
  ∧ (isValid (deserialize it) = true →
     currentClient (bulkItem conf deserialize w request bs it).1 = None).
Proof.
  intros Hflag Hcl Hbs. destruct (isValid (deserialize it)) eqn:Hv.
  - rewrite (bulkItem_valid _ _ _ _ _ _ Hv). simpl.
    set (item0 := setDateReceived _ _).
    assert (Hrv : currentClient (revalidate w bs item0).1.1 = None
                  ∧ client (revalidate w bs item0).1.2 = None).
    { destruct Hbs as [Hc|(Hf & t & Ht & Hle)].
      - unfold revalidate. by destruct (integrityTaskRan w bs).
      - unfold revalidate, integrityTaskRan. rewrite Hf, Ht.
        by rewrite (proj2 (Nat.leb_le _ _) Hle). }
    destruct Hrv as [Hcur Hcli].
    rewrite dispatched_app.
    destruct (LogEvents_quiet _ (revalidate_events w bs item0)) as (-> & _).
    destruct (revalidate w bs item0) as [[bs' item'] ev]. simpl in *.
    assert (Hres : (resolveClient conf w item' (Some (currentClient bs'))).1 = None).
    { unfold resolveClient, plainLookup. rewrite Hcur, Hcli, Hflag. simpl.
      by case_bool_decide. }
    pose proof (processRequest_rejected w item' (Some (currentClient bs'))
                  (forceClientValidation bs') (or_introl Hres)) as Hrej.
    pose proof (processRequest_dispatched conf w item' (Some (currentClient bs'))
                  (forceClientValidation bs')) as Hd.
    destruct (processRequest_clientRefOut conf w item' (Some (currentClient bs'))
                (forceClientValidation bs')) as [Hout _].
    simpl in Hd. rewrite Hrej in Hd. rewrite processItem_events, Hd.
    split; [done|]. intros _. unfold processItem. rewrite Hrej. simpl.
    by rewrite Hout.
  - rewrite (bulkItem_invalid _ _ _ _ _ _ Hv). split; [done|]. done.
Qed.

(** X12.  On a server that does not allow plain log requests, a bulk whose
    elements carry no client of their own dispatches nothing from the moment
    no client is retained; in particular, once an execution of the integrity
    task is detected after an accepted item, that item and all the items
    after it are dropped. *)
Theorem bulkLoop_no_client tick request bs j :
  hasFlag conf ALLOW_PLAIN_LOG_REQUEST = false →
  Forall (λ it, client (deserialize it) = None) j →
  (currentClient bs = None
   ∨ (forceClientValidation bs = false
      ∧ (∃ it rest, j = it :: rest ∧ isValid (deserialize it) = true)
      ∧ ∃ t, clientIntegrityTask (registry (env tick)) = Some t
             ∧ lastClientValidation bs ≤ t)) →
  dispatched (bulkLoop conf deserialize env tick request bs j).2 = [].
Proof.
  intros Hflag Hall. revert tick bs.
  assert (Hnone : ∀ j, Forall (λ it, client (deserialize it) = None) j →
            ∀ tick bs, currentClient bs = None →
            dispatched (bulkLoop conf deserialize env tick request bs j).2 = []).
  { clear j Hall. induction 1 as [|it j Hit _ IH]; intros tick bs Hc; [done|].
    simpl. destruct (itemCount bs =? maxItemsInBulk conf); [done|].
    destruct (bulkItem_no_client (env tick) request bs it Hflag Hit (or_introl Hc))
      as [Hd Hcur].
    pose proof (bulkItem_invalid conf deserialize (env tick) request bs it) as Hinv.
    destruct (bulkItem conf deserialize (env tick) request bs it) as [bs' ev].
    simpl in *.
    assert (Hc' : currentClient bs' = None).
    { destruct (isValid (deserialize it)); [by apply Hcur|].
      specialize (Hinv eq_refl). by inversion Hinv; subst. }
    specialize (IH (S tick) bs' Hc').
    destruct (bulkLoop conf deserialize env (S tick) request bs' j) as [bs'' evs].
    simpl in *. by rewrite dispatched_app, Hd, IH. }
  intros tick bs [Hc|(Hf & (it & rest & -> & Hv) & t & Ht & Hle)].
  - by apply Hnone.
  - inversion Hall as [|? ? Hit Hrest]; subst. simpl.
    destruct (itemCount bs =? maxItemsInBulk conf); [done|].
    destruct (bulkItem_no_client (env tick) request bs it Hflag Hit
                (or_intror (conj Hf (ex_intro _ t (conj Ht Hle))))) as [Hd Hcur].
    specialize (Hcur Hv).
    destruct (bulkItem conf deserialize (env tick) request bs it) as [bs' ev].
    simpl in *. specialize (Hnone rest Hrest (S tick) bs' Hcur).
    destruct (bulkLoop conf deserialize env (S tick) request bs' rest) as [bs'' evs].
    simpl in *. by rewrite dispatched_app, Hd, Hnone.
Qed.

(** X13.  A bulk whose client is not alive at the date the envelope was received
    dispatches nothing: every valid element is processed with forced
    validation for that client and rejected. *)
Theorem bulkLoop_dead_client tick request bs c j :
  currentClient bs = Some c →
  forceClientValidation bs = true →
  itemCount bs ≤ maxItemsInBulk conf →
  isAlive c (dateReceived request) = false →
  dispatched (bulkLoop conf deserialize env tick request bs j).2 = []
  ∧ length (processed (bulkLoop conf deserialize env tick request bs j).2)
    = min (maxItemsInBulk conf - itemCount bs)
          (length (validItems deserialize j)).
Proof.
  intros Hc Hf Hle Hdead. revert tick bs Hc Hf Hle.
  induction j as [|it j IH]; intros tick bs Hc Hf Hle.
  - simpl. split; [done|]. change (validItems deserialize []) with (@nil LogRequest).
    simpl. lia.
  - simpl. rewrite validItems_cons.
    destruct (Nat.eqb_spec (itemCount bs) (maxItemsInBulk conf)) as [Heq|Hne].
    { simpl. split; [done|]. rewrite Heq, Nat.sub_diag. done. }
    destruct (isValid (deserialize it)) eqn:Hv.
    + rewrite (bulkItem_valid _ _ _ _ _ _ Hv). simpl.
      rewrite (revalidate_forced _ _ _ Hf). simpl.
      set (item0 := setDateReceived _ _).
      assert (Hres : resolveClient conf (env tick) item0 (Some (currentClient bs))
                     = (Some c, [])).
      { rewrite Hc. by apply resolveClient_retained. }
      assert (Hby : bypassChecksOf (Some (currentClient bs))
                                   (forceClientValidation bs) = false).
      { unfold bypassChecksOf. by rewrite Hf. }
      pose proof (processRequest_rejected (env tick) item0 (Some (currentClient bs))
                    (forceClientValidation bs)) as Hrej.
      rewrite Hres in Hrej. specialize (Hrej (or_intror (conj Hby
        (ex_intro _ c (conj eq_refl Hdead))))).
      pose proof (processRequest_dispatched conf (env tick) item0
                    (Some (currentClient bs)) (forceClientValidation bs)) as Hd.
      destruct (processRequest_clientRefOut conf (env tick) item0
                  (Some (currentClient bs)) (forceClientValidation bs)) as [Hout _].
      pose proof (processRequest_processed conf (env tick) item0
                    (Some (currentClient bs)) (forceClientValidation bs)) as Hp.
      simpl in Hd. rewrite Hrej in Hd. rewrite Hres in Hout. simpl in Hout.
      unfold processItem. rewrite Hrej. simpl.
      set (bs' := {| itemCount := S (itemCount bs);
                     lastClientValidation := lastClientValidation bs;
                     currentClient := _;
                     lastKnownClientId := lastKnownClientId bs;
                     forceClientValidation := true |}).
      destruct (IH (S tick) bs' Hout eq_refl ltac:(simpl; lia)) as [IHd IHp].
      destruct (bulkLoop conf deserialize env (S tick) request bs' j) as [bs'' evs].
      simpl in *. rewrite dispatched_app, Hd, IHd, processed_app, Hp, length_app, IHp.
      simpl. split; [done|]. lia.
    + rewrite (bulkItem_invalid _ _ _ _ _ _ Hv).
      destruct (IH (S tick) bs Hc Hf Hle) as [IHd IHp].
      destruct (bulkLoop conf deserialize env (S tick) request bs j) as [bs'' evs].
      simpl in *. done.
Qed.

End BulkMore.

(** ** Drain rounds: where events come from, what happens to frames *)

Section HandlerMore.

Variable conf : Configuration.
Context {Json : Type}.
Variable deserialize : Json → LogRequest.
Variable env : nat → World.
Context {RawRequest : Type}.
Variable decode :
  World → RawRequest → Request.StatusCode → bool → LogRequest * list Json.

Local Abbreviation step := (processRawRequest conf deserialize env decode).
Local Abbreviation loop := (drainLoop conf deserialize env decode).
Local Abbreviation round := (processRequestQueue conf deserialize env decode).

Lemma FromCalls_app a b :
  FromCalls conf env a → FromCalls conf env b → FromCalls conf env (a ++ b).
Proof. intros Ha Hb e [Hin|Hin]%elem_of_app; auto. Qed.

Lemma FromCalls_handler evs :
  Forall (λ e, isHandlerEvent e = true) evs → FromCalls conf env evs.
Proof. intros Hall e Hin. left. by apply (proj1 (Forall_forall _ _) Hall). Qed.

Lemma LogEvents_handler evs :
  LogEvents evs → Forall (λ e, isHandlerEvent e = true) evs.
Proof. induction 1; by constructor. Qed.

Lemma bulkLoop_FromCalls tick request bs j :
  hasFlag conf ALLOW_BULK_LOG_REQUEST = true →
  FromCalls conf env (bulkLoop conf deserialize env tick request bs j).2.
Proof.
  intros Hflag. revert tick bs. induction j as [|it j IH]; intros tick bs.
  - by apply FromCalls_handler.
  - simpl. destruct (itemCount bs =? maxItemsInBulk conf).
    { apply FromCalls_handler. by repeat constructor. }
    assert (Hit : FromCalls conf env
                    (bulkItem conf deserialize (env tick) request bs it).2).
    { destruct (isValid (deserialize it)) eqn:Hv.
      - rewrite (bulkItem_valid _ _ _ _ _ _ Hv). simpl. apply FromCalls_app.
        + apply FromCalls_handler, LogEvents_handler, revalidate_events.
        + rewrite processItem_events. intros e He. right. eauto 10.
      - rewrite (bulkItem_invalid _ _ _ _ _ _ Hv).
        apply FromCalls_handler. by repeat constructor. }
    destruct (bulkItem conf deserialize (env tick) request bs it) as [bs' ev].
    specialize (IH (S tick) bs').
    destruct (bulkLoop conf deserialize env (S tick) request bs' j) as [bs'' evs].
    simpl in *. by apply FromCalls_app.
Qed.

Lemma processRawRequest_FromCalls allowPlain compression h :
  ∃ evs, trace (step allowPlain compression h).1 = trace h ++ evs
         ∧ FromCalls conf env evs.
Proof.
  unfold processRawRequest.
  set (h0 := if 0 <? dispatchDelay conf then emit _ h else h).
  assert (H0 : tick h0 = tick h ∧ trace h0 = trace h ++ sleepEvents conf).
  { subst h0. unfold sleepEvents. destruct (0 <? dispatchDelay conf); simpl; [done|].
    by rewrite app_nil_r. }
  destruct H0 as (Ht & Htr).
  assert (Hsleep : FromCalls conf env (sleepEvents conf)).
  { apply FromCalls_handler. unfold sleepEvents.
    destruct (0 <? dispatchDelay conf); by repeat constructor. }
  destruct (RequestQueue.pull (m_queue h0)) as [[raw q]|]; [|by eauto].
  destruct (decode _ raw _ _) as [request j].
  destruct (buildFailed request); simpl.
  { rewrite Htr, <- !app_assoc. eexists. split; [done|].
    apply FromCalls_app; [done|]. apply FromCalls_handler. by repeat constructor. }
  destruct (isBulk request).
  - destruct (hasFlag conf ALLOW_BULK_LOG_REQUEST) eqn:Hflag; simpl.
    + pose proof (bulkLoop_FromCalls (S (tick h0)) request
                    (bulkStart (env (tick h0)) request) j Hflag) as Hb.
      destruct (bulkLoop _ _ _ _ _ _ _) as [bs evs]. simpl in *.
      rewrite Htr, <- !app_assoc. eexists. split; [done|].
      apply FromCalls_app; [done|]. apply FromCalls_app; [|done].
      apply FromCalls_handler. by repeat constructor.
    + rewrite Htr, <- !app_assoc. eexists. split; [done|].
      apply FromCalls_app; [done|]. apply FromCalls_handler. by repeat constructor.
  - simpl. rewrite Htr, <- !app_assoc. eexists. split; [done|].
    apply FromCalls_app; [done|]. apply FromCalls_app.
    + apply FromCalls_handler. by repeat constructor.
    + intros e He. right. eauto 10.
Qed.

Lemma drainLoop_FromCalls allowPlain compression total h :
  ∃ evs, trace (loop allowPlain compression total h).1 = trace h ++ evs
         ∧ FromCalls conf env evs.
Proof.
  revert h. induction total as [|n IH]; intros h.
  - exists []. simpl. split; [by rewrite app_nil_r|by apply FromCalls_handler].
  - simpl. destruct (processRawRequest_FromCalls allowPlain compression h)
      as (ev1 & H1 & Ha1).
    destruct (step allowPlain compression h) as [h' []]; simpl in *.
    + destruct (IH h') as (ev2 & H2 & Ha2). exists (ev1 ++ ev2).
      split; [by rewrite H2, H1, app_assoc|by apply FromCalls_app].
    + eauto.
Qed.

(** Where the events of a drain round come from. *)
Lemma processRequestQueue_FromCalls h :
  ∃ evs, trace (round h) = trace h ++ evs ∧ FromCalls conf env evs.
Proof.
  unfold processRequestQueue.
  destruct (drainLoop_FromCalls (hasFlag conf ALLOW_PLAIN_LOG_REQUEST)
              (hasFlag conf COMPRESSION) (RequestQueue.size (m_queue h))
              (emit [EvQueueSize (RequestQueue.size (m_queue h))] h))
    as (evs & Htr & Ha).
  destruct (drainLoop _ _ _ _) as [h' []]; simpl in *.
  - rewrite Htr, <- !app_assoc. eexists. split; [done|].
    apply FromCalls_app; [apply FromCalls_handler; by repeat constructor|].
    apply FromCalls_app; [done|apply FromCalls_handler; by repeat constructor].
  - rewrite Htr, <- !app_assoc. eexists. split; [done|].
    apply FromCalls_app; [apply FromCalls_handler; by repeat constructor|done].
Qed.

(** X14.  Every record a drain round hands to the engine is a valid request that
    carries a client and the id of that client. *)
Theorem processRequestQueue_dispatched_valid h r :
  EvDispatch r ∈ trace (round h) →
  EvDispatch r ∈ trace h
  ∨ (isValid r = true ∧ ∃ c, client r = Some c ∧ clientId r = id c).
Proof.
  destruct (processRequestQueue_FromCalls h) as (evs & -> & Hfrom).
  intros [Hin|Hin]%elem_of_app; [by left|right].
  destruct (Hfrom _ Hin) as [?|(n & request & clientRef & forceCheck & He & _)];
    [done|].
  destruct (processRequest_dispatch_inv conf _ _ _ _ _ He) as (c & _ & -> & Hv & _).
  split; [done|]. by exists c.
Qed.

(** X15.  On a server that does not allow bulk requests, every record a drain
    round hands to the engine was allowed by the policy evaluator in a world
    the dispatcher observed, and its client was alive at its
    [dateReceived]. *)
Theorem processRequestQueue_without_bulk h r :
  hasFlag conf ALLOW_BULK_LOG_REQUEST = false →
  EvDispatch r ∈ trace (round h) →
  EvDispatch r ∈ trace h
  ∨ ∃ n c, client r = Some c
           ∧ isAlive c (dateReceived r) = true
           ∧ (isRequestAllowed conf (env n) r).1 = true.
Proof.
  intros Hflag. destruct (processRequestQueue_FromCalls h) as (evs & -> & Hfrom).
  intros [Hin|Hin]%elem_of_app; [by left|right].
  destruct (Hfrom _ Hin)
    as [?|(n & request & clientRef & forceCheck & He & [[-> ->]|?])];
    [done| |congruence].
  destruct (processRequest_dispatch_inv conf _ _ _ _ _ He) as (c & _ & -> & _ & Hchk).
  destruct (Hchk eq_refl) as (Halive & Hpol & _). by exists n, c.
Qed.

Lemma queueCalls_sleepEvents : queueCalls (sleepEvents conf) = [].
Proof. unfold sleepEvents. by destruct (0 <? dispatchDelay conf). Qed.

(** The loop over the frames counted either pulls all of them and reaches
    its end, or returns at the first frame that cannot be built, the frames
    after it staying in the buffer. *)
Lemma drainLoop_outcome allowPlain compression frames rest h :
  RequestQueue.drain (m_queue h) = frames ++ rest →
  ∃ h' flow k,
    loop allowPlain compression (length frames) h = (h', flow)
    ∧ queueCalls (trace h') = queueCalls (trace h) ++ replicate k EvQueuePull
    ∧ RequestQueue.drain (m_queue h') = drop k frames ++ rest
    ∧ RequestQueue.backlog (m_queue h') = RequestQueue.backlog (m_queue h)
    ∧ RequestQueue.activeIdx (m_queue h') = RequestQueue.activeIdx (m_queue h)
    ∧ match flow with
      | Next => k = length frames
      | Return =>
          ∃ raw n, frames !! (k - 1) = Some raw ∧ 0 < k ≤ length frames
                   ∧ buildFailed (decode (env n) raw (defaultStatus allowPlain)
                                         compression).1 = true
                   ∧ ∀ i raw', i < k - 1 → frames !! i = Some raw' →
                       ∃ n', buildFailed (decode (env n') raw'
                                            (defaultStatus allowPlain)
                                            compression).1 = false
      end.
Proof.
  revert h. induction frames as [|raw frames IH]; intros h Hdrain.
  - exists h, Next, 0. simpl. by rewrite app_nil_r.
  - simpl.
    destruct (buildFailed (decode (env (tick h)) raw (defaultStatus allowPlain)
                                  compression).1) eqn:Hb.
    + destruct (processRawRequest_failed conf deserialize env decode allowPlain
                  compression h raw (frames ++ rest) Hdrain Hb)
        as (h' & Hstep & Htr & Hd & Hbk & Hi).
      exists h', Return, 1. rewrite Hstep. split; [done|]. split.
      { rewrite Htr, !queueCalls_app, queueCalls_sleepEvents. done. }
      split; [done|]. split; [done|]. split; [done|].
      exists raw, (tick h). simpl. split; [done|]. split; [lia|].
      split; [done|]. intros i raw' Hi'. lia.
    + destruct (processRawRequest_built conf deserialize env decode allowPlain
                  compression h raw (frames ++ rest) Hdrain Hb)
        as (h1 & Hstep & Hcalls & Hd & Hbk & Hi & _).
      destruct (IH h1 Hd) as (h' & flow & k & Hloop & Hc' & Hd' & Hb' & Hi' & Hflow).
      exists h', flow, (S k). rewrite Hstep, Hloop. split; [done|]. split.
      { rewrite Hc', Hcalls, <- app_assoc. done. }
      split; [done|]. split; [congruence|]. split; [congruence|].
      destruct flow; [by rewrite Hflow|].
      destruct Hflow as (raw' & n & Hk & Hkle & Hfail & Hbuilt).
      destruct k as [|k]; [lia|]. simpl in Hk, Hbuilt.
      rewrite Nat.sub_0_r in Hk, Hbuilt.
      exists raw', n. simpl. split; [done|]. split; [lia|]. split; [done|].
      intros [|i] raw0 Hlt Hraw0; simpl in Hraw0.
      { injection Hraw0 as <-. by exists (tick h). }
      apply (Hbuilt i raw0); [lia|done].
Qed.

(** The two ways a drain round ends. *)
Lemma processRequestQueue_cases h :
  let total := RequestQueue.size (m_queue h) in
  (queueCalls (trace (round h))
   = queueCalls (trace h)
     ++ EvQueueSize total :: replicate total EvQueuePull ++ [EvQueueSwitchContext]
   ∧ RequestQueue.drain (m_queue (round h)) = RequestQueue.backlog (m_queue h)
   ∧ RequestQueue.backlog (m_queue (round h)) = [])
  ∨ (∃ k raw n,
       k < total
       ∧ RequestQueue.drain (m_queue h) !! k = Some raw
       ∧ buildFailed (decode (env n) raw
                        (defaultStatus (hasFlag conf ALLOW_PLAIN_LOG_REQUEST))
                        (hasFlag conf COMPRESSION)).1 = true
       ∧ queueCalls (trace (round h))
         = queueCalls (trace h)
           ++ EvQueueSize total :: replicate (S k) EvQueuePull
       ∧ RequestQueue.drain (m_queue (round h))
         = drop (S k) (RequestQueue.drain (m_queue h))
       ∧ RequestQueue.backlog (m_queue (round h))
         = RequestQueue.backlog (m_queue h)
       ∧ RequestQueue.activeIdx (m_queue (round h))
         = RequestQueue.activeIdx (m_queue h)
       ∧ ∀ i raw', i < k → RequestQueue.drain (m_queue h) !! i = Some raw' →
           ∃ n', buildFailed
                   (decode (env n') raw'
                      (defaultStatus (hasFlag conf ALLOW_PLAIN_LOG_REQUEST))
                      (hasFlag conf COMPRESSION)).1 = false).
Proof.
  intros total. unfold processRequestQueue. fold total.
  destruct (drainLoop_outcome (hasFlag conf ALLOW_PLAIN_LOG_REQUEST)
              (hasFlag conf COMPRESSION) (RequestQueue.drain (m_queue h)) []
              (emit [EvQueueSize total] h))
    as (h' & flow & k & Hloop & Hcalls & Hd & Hb & Hi & Hflow);
    [by rewrite app_nil_r|].
  change (length (RequestQueue.drain (m_queue h))) with total in *.
  rewrite Hloop. simpl in Hcalls, Hb, Hi. rewrite app_nil_r in Hd.
  rewrite queueCalls_app in Hcalls. simpl in Hcalls.
  destruct flow.
  - left. subst k. simpl.
    destruct (switchContext_swaps (m_queue h')) as [Hs1 Hs2].
    rewrite Hs1, Hs2, Hb, Hd, queueCalls_app, Hcalls. simpl.
    rewrite <- !app_assoc. split; [done|]. split; [done|].
    apply drop_ge. done.
  - right. destruct Hflow as (raw & n & Hk & Hkle & Hfail & Hbuilt).
    destruct k as [|k]; [lia|]. simpl in Hk, Hbuilt.
    rewrite Nat.sub_0_r in Hk, Hbuilt.
    exists k, raw, n. split; [lia|]. split; [done|]. split; [done|].
    rewrite Hcalls, <- app_assoc. done.
Qed.

(** X16.  A drain round either pulls every frame it counted, switches the context
    and leaves the frames pushed in the mean time to the next round, or
    stops at the first frame that cannot be built: that frame and the frames
    before it, which were all built, have been pulled (they may be all the
    frames counted), the context is not switched, and the frames after the
    failed one stay where they were, in order. *)
Theorem processRequestQueue_outcome h :
  let total := RequestQueue.size (m_queue h) in
  (queueCalls (trace (round h))
   = queueCalls (trace h)
     ++ EvQueueSize total :: replicate total EvQueuePull ++ [EvQueueSwitchContext]
   ∧ RequestQueue.drain (m_queue (round h)) = RequestQueue.backlog (m_queue h)
   ∧ RequestQueue.backlog (m_queue (round h)) = [])
  ∨ (∃ k raw n,
       k < total
       ∧ RequestQueue.drain (m_queue h) !! k = Some raw
       ∧ buildFailed (decode (env n) raw
                        (defaultStatus (hasFlag conf ALLOW_PLAIN_LOG_REQUEST))
                        (hasFlag conf COMPRESSION)).1 = true
       ∧ queueCalls (trace (round h))
         = queueCalls (trace h)
           ++ EvQueueSize total :: replicate (S k) EvQueuePull
       ∧ RequestQueue.drain (m_queue (round h))
         = drop (S k) (RequestQueue.drain (m_queue h))
       ∧ RequestQueue.backlog (m_queue (round h))
         = RequestQueue.backlog (m_queue h)
       ∧ RequestQueue.activeIdx (m_queue (round h))
         = RequestQueue.activeIdx (m_queue h)
       ∧ ∀ i raw', i < k → RequestQueue.drain (m_queue h) !! i = Some raw' →
           ∃ n', buildFailed
                   (decode (env n') raw'
                      (defaultStatus (hasFlag conf ALLOW_PLAIN_LOG_REQUEST))
                      (hasFlag conf COMPRESSION)).1 = false).
Proof. exact (processRequestQueue_cases h). Qed.

Lemma pulls_app a b : pulls (a ++ b) = pulls a + pulls b.
Proof. unfold pulls. by rewrite List.filter_app, length_app. Qed.

Lemma pulls_queueCalls tr : pulls (queueCalls tr) = pulls tr.
Proof.
  unfold pulls, queueCalls. induction tr as [|e tr IH]; [done|].
  destruct e; simpl; auto.
Qed.

Lemma pulls_replicate n : pulls (replicate n EvQueuePull) = n.
Proof. unfold pulls. induction n as [|n IH]; simpl; auto. Qed.

Lemma pulls_stopped total k :
  pulls (EvQueueSize total :: replicate k EvQueuePull) = k.
Proof. apply (pulls_replicate k). Qed.

Lemma pulls_complete total k :
  pulls (EvQueueSize total :: replicate k EvQueuePull ++ [EvQueueSwitchContext])
  = k.
Proof.
  change (pulls (replicate k EvQueuePull ++ [EvQueueSwitchContext]) = k).
  rewrite pulls_app, pulls_replicate. unfold pulls. simpl. lia.
Qed.

(** A round neither loses nor duplicates a frame: the frames pulled so far
    and the frames held by the two buffers add up to the same number before
    and after it. *)
Lemma processRequestQueue_conserves h :
  pulls (trace (round h)) + RequestQueue.size (m_queue (round h))
  + RequestQueue.backlogSize (m_queue (round h))
  = pulls (trace h) + RequestQueue.size (m_queue h)
    + RequestQueue.backlogSize (m_queue h).
Proof.
  unfold RequestQueue.size, RequestQueue.backlogSize.
  rewrite <- (pulls_queueCalls (trace (round h))), <- (pulls_queueCalls (trace h)).
  destruct (processRequestQueue_cases h)
    as [(-> & -> & ->)|(k & raw & n & Hk & Hraw & _ & -> & -> & -> & _)].
  - rewrite pulls_app, pulls_complete. unfold RequestQueue.size. simpl. lia.
  - rewrite pulls_app, pulls_stopped, length_drop.
    unfold RequestQueue.size in Hk. lia.
Qed.

(** X17.  A frame handed to the handler is not processed by the round that
    follows: that round pulls no more frames than the dispatch buffer held
    before the frame arrived, and the frame ends up last among the frames
    that wait, in the buffer the next complete round drains. *)
Theorem handled_frame_waits h rawRequest :
  let h' := round (handle h rawRequest) in
  pulls (trace h') ≤ pulls (trace h) + RequestQueue.size (m_queue h)
  ∧ (RequestQueue.drain (m_queue h')
     = RequestQueue.backlog (m_queue h) ++ [rawRequest]
     ∨ RequestQueue.backlog (m_queue h')
       = RequestQueue.backlog (m_queue h) ++ [rawRequest]).
Proof.
  intros h'. subst h'.
  assert (Hq : RequestQueue.drain (m_queue (handle h rawRequest))
               = RequestQueue.drain (m_queue h)
               ∧ RequestQueue.backlog (m_queue (handle h rawRequest))
                 = RequestQueue.backlog (m_queue h) ++ [rawRequest]
               ∧ pulls (trace (handle h rawRequest)) = pulls (trace h)).
  { unfold handle. simpl. rewrite push_drain, push_backlog.
    rewrite !pulls_app. split; [done|]. split; [done|].
    change (pulls [EvWriteStatusCode Response.STATUS_OK]) with 0.
    change (pulls [EvQueuePush]) with 0. lia. }
  destruct Hq as (Hd & Hb & Hp).
  rewrite <- Hp, <- (pulls_queueCalls (trace (round _))),
          <- (pulls_queueCalls (trace (handle _ _))).
  unfold RequestQueue.size. rewrite <- Hd.
  destruct (processRequestQueue_cases (handle h rawRequest))
    as [(-> & -> & _)|(k & raw & n & Hk & _ & _ & -> & _ & -> & _)].
  - rewrite pulls_app, pulls_complete. unfold RequestQueue.size.
    split; [lia|]. left. done.
  - rewrite pulls_app, pulls_stopped. unfold RequestQueue.size in Hk.
    split; [lia|]. right. done.
Qed.

Local Abbreviation run := (run conf deserialize env decode).

(** X18.  Under any sequence of frames handed by the sessions and of iterations
    of the dispatch thread, the sessions are written one [STATUS_OK] per frame
    handed and nothing else, and no frame is lost or duplicated: the frames
    pulled and the frames waiting in the two buffers count the frames that
    were there plus the frames handed. *)
Theorem run_conserves acts h :
  let handled := length (List.filter isHandle acts) in
  statusWritten (trace (run acts h))
  = statusWritten (trace h) ++ replicate handled Response.STATUS_OK
  ∧ pulls (trace (run acts h)) + RequestQueue.size (m_queue (run acts h))
    + RequestQueue.backlogSize (m_queue (run acts h))
    = pulls (trace h) + RequestQueue.size (m_queue h)
      + RequestQueue.backlogSize (m_queue h) + handled.
Proof.
  revert h. induction acts as [|[raw|] acts IH]; intros h; simpl.
  - rewrite app_nil_r. split; [done|lia].
  - destruct (IH (handle h raw)) as [-> ->]. unfold handle. simpl.
    rewrite !statusWritten_app, !pulls_app. simpl.
    unfold RequestQueue.size, RequestQueue.backlogSize.
    rewrite push_drain, push_backlog, length_app. simpl.
    rewrite app_nil_r, <- app_assoc. split; [done|].
    change (pulls [EvWriteStatusCode Response.STATUS_OK]) with 0.
    change (pulls [EvQueuePush]) with 0. lia.
  - destruct (IH (iteration conf deserialize env decode h)) as [-> ->].
    unfold iteration, emit. simpl.
    rewrite statusWritten_app, pulls_app, processRequestQueue_statusWritten.
    simpl. rewrite app_nil_r. split; [done|].
    pose proof (processRequestQueue_conserves h) as Hc.
    change (pulls [EvSleep 100]) with 0. lia.
Qed.

End HandlerMore.

(** ** src/net/http-client.cc *)

Section HttpClientFacts.

Import HttpClient.

#[local] Arguments String.append !s1 s2 /.

Lemma substring_whole str : String.substring 0 (String.length str) str = str.
Proof. induction str as [|c str IH]; simpl; [done|by rewrite IH]. Qed.

Lemma append_assoc a b c : (a +:+ b) +:+ c = a +:+ (b +:+ c).
Proof. induction a as [|x a IH]; simpl; [done|by rewrite IH]. Qed.

Lemma append_nil_r a : a +:+ "" = a.
Proof. induction a as [|x a IH]; simpl; [done|by rewrite IH]. Qed.

(** The result of one call of the callback. *)
Lemma writeCallback_call resizeOk contents size nmemb s :
  (size * nmemb < 2 ^ 64)%N →
  N.to_nat (size * nmemb) = String.length contents →
  let res := writeCallback resizeOk contents size nmemb s in
  if resizeOk then
    res = ((size * nmemb)%N, s +:+ contents)
    ∧ Utils.startsWith res.2 s = true
    ∧ Utils.endsWith res.2 contents = true
    ∧ String.length res.2 = String.length s + N.to_nat res.1
  else
    res.2 = s
    ∧ (res.1 = (size * nmemb)%N ↔ contents = "").
Proof.
  intros Hlt Hlen res. subst res. unfold writeCallback, mul_size_t.
  rewrite N.mod_small by done. rewrite Hlen, substring_whole.
  destruct resizeOk; cbn [fst snd].
  - split; [done|].
    split; [apply startsWith_prefix; eauto|].
    split; [apply endsWith_suffix; eauto|].
    by rewrite length_append, Hlen.
  - split; [done|]. split.
    + intros H0. rewrite <- H0 in Hlen. by destruct contents.
    + intros ->. simpl in Hlen. lia.
Qed.

(** X19.  One call: when memory is available the callback returns the number of
    characters received and the string is the old one followed by them, so
    it starts with the old string and grows by the value returned; when it
    is not, the string is unchanged and 0 is returned, which differs from
    the number of characters received unless there was none. *)
Theorem writeCallback_result resizeOk contents size nmemb s :
  (size * nmemb < 2 ^ 64)%N →
  N.to_nat (size * nmemb) = String.length contents →
  let res := writeCallback resizeOk contents size nmemb s in
  if resizeOk then
    res = ((size * nmemb)%N, s +:+ contents)
    ∧ Utils.startsWith res.2 s = true
    ∧ Utils.endsWith res.2 contents = true
    ∧ String.length res.2 = String.length s + N.to_nat res.1
  else
    res = (0%N, s)
    ∧ (res.1 = (size * nmemb)%N ↔ contents = "").
Proof.
  intros Hlt Hlen.
  pose proof (writeCallback_call resizeOk contents size nmemb s Hlt Hlen) as Hres.
  destruct resizeOk; [exact Hres|].
  cbv zeta in *. destruct Hres as [_ Hret]. split; [reflexivity|exact Hret].
Qed.

(** X20.  A sequence of well-formed calls leaves the string it started from
    followed by the chunks in the order received, and returns the length of
    each chunk. *)
Theorem writeCallbacks_concat calls s :
  Forall wellFormed calls →
  writeCallbacks calls s
  = ((λ call, N.of_nat (String.length (contentsOf call))) <$> calls,
     s +:+ String.concat "" (contentsOf <$> calls)).
Proof.
  intros Hall. revert s.
  induction Hall as [|[[[ok contents] size] nmemb] calls Hw _ IH]; intros s.
  - simpl. by rewrite append_nil_r.
  - cbn [writeCallbacks]. destruct Hw as (-> & Hlt & Hlen).
    pose proof (writeCallback_call true contents size nmemb s Hlt Hlen) as Hres.
    cbv zeta in Hres. destruct Hres as (Hres & _). rewrite Hres, IH.
    rewrite fmap_cons. change (contentsOf (true, contents, size, nmemb)) with contents.
    rewrite <- Hlen, N2Nat.id. f_equal.
    rewrite append_assoc. f_equal.
    destruct calls as [|call calls]; simpl; [by rewrite append_nil_r|done].
Qed.

End HttpClientFacts.

(** ** More of the concrete server *)

Section ConcreteMore.

Import Scenario Cases.

Lemma isAlphaNumeric_app_witness :
  Utils.isAlphaNumeric "app" "" = true
  ∧ Utils.isAlphaNumeric "app" ("" +:+ "-_") = true.
Proof.
  split; [reflexivity|].
  apply (isAlphaNumeric_app "app" "" "" "-_"). reflexivity.
Defined.

Lemma processRequest_empty_clientId_witness :
  retained (@None (option Client)) = None
  ∧ client anonymous = None
  ∧ clientId anonymous = ""
  ∧ accepted (processRequest conf world anonymous None true) = false
  ∧ clientRefOut (processRequest conf world anonymous None true) = None.
Proof.
  split; [reflexivity|]. split; [reflexivity|]. split; [reflexivity|].
  destruct (processRequest_empty_clientId conf world anonymous None true
              eq_refl eq_refl eq_refl) as (Hacc & Hout & _).
  split; [exact Hacc|exact Hout].
Defined.

Lemma bulkLoop_Consistent_witness :
  Consistent afterAccepted
  ∧ Consistent (bulkItem conf deserialize world envelope afterAccepted
                         (item "app" "T" "two")).1.
Proof.
  assert (Hc : Consistent afterAccepted) by (intros _; by exists c1).
  split; [exact Hc|].
  destruct (bulkLoop_Consistent conf deserialize env world envelope)
    as (_ & Hitem & _).
  apply Hitem. exact Hc.
Defined.

Lemma bulkLoop_retained_client_witness :
  forceClientValidation afterAccepted = false
  ∧ currentClient afterAccepted = Some c1
  ∧ itemCount afterAccepted ≤ maxItemsInBulk conf
  ∧ taskQuiet env 2 (lastClientValidation afterAccepted)
  ∧ dispatched (bulkLoop conf deserialize env 2 envelope afterAccepted
                         [item "app" "T" "two"; item "residue" "" "three"]).2
    = [second].
Proof.
  assert (Hq : taskQuiet env 2 (lastClientValidation afterAccepted))
    by (intros n _; vm_compute; lia).
  assert (Hle : itemCount afterAccepted ≤ maxItemsInBulk conf)
    by (vm_compute; lia).
  split; [reflexivity|]. split; [reflexivity|]. split; [exact Hle|].
  split; [exact Hq|].
  destruct (bulkLoop_retained_client conf deserialize env 2 envelope afterAccepted
              c1 [item "app" "T" "two"; item "residue" "" "three"]
              eq_refl eq_refl Hle Hq) as (Hd & _).
  exact Hd.
Defined.

Lemma bulkLoop_no_client_witness :
  let j := [item "app" "T" "two"; item "app" "T" "three"] in
  hasFlag conf ALLOW_PLAIN_LOG_REQUEST = false
  ∧ Forall (λ it, client (deserialize it) = None) j
  ∧ forceClientValidation afterAccepted = false
  ∧ clientIntegrityTask (registry (envSwept 2)) = Some 1200
  ∧ lastClientValidation afterAccepted ≤ 1200
  ∧ dispatched (bulkLoop conf deserialize envSwept 2 envelope afterAccepted j).2
    = [].
Proof.
  intros j.
  assert (Hall : Forall (λ it, client (deserialize it) = None) j)
    by (repeat constructor).
  assert (Hle : lastClientValidation afterAccepted ≤ 1200) by (vm_compute; lia).
  split; [reflexivity|]. split; [exact Hall|]. split; [reflexivity|].
  split; [reflexivity|]. split; [exact Hle|].
  apply (bulkLoop_no_client conf deserialize envSwept 2 envelope afterAccepted j
           eq_refl Hall).
  right. split; [reflexivity|]. split.
  - exists (item "app" "T" "two"), [item "app" "T" "three"]. by split.
  - exists 1200. split; [reflexivity|exact Hle].
Defined.

Lemma bulkLoop_dead_client_witness :
  let j := [item "app" "T" "one"; item "app" "T" "two"] in
  currentClient (bulkStart world lateEnvelope) = Some c1
  ∧ forceClientValidation (bulkStart world lateEnvelope) = true
  ∧ itemCount (bulkStart world lateEnvelope) ≤ maxItemsInBulk conf
  ∧ isAlive c1 (dateReceived lateEnvelope) = false
  ∧ dispatched (bulkLoop conf deserialize env 1 lateEnvelope
                         (bulkStart world lateEnvelope) j).2 = [].
Proof.
  intros j.
  assert (Hle : itemCount (bulkStart world lateEnvelope) ≤ maxItemsInBulk conf)
    by (vm_compute; lia).
  split; [reflexivity|]. split; [reflexivity|]. split; [exact Hle|].
  split; [reflexivity|].
  destruct (bulkLoop_dead_client conf deserialize env 1 lateEnvelope
              (bulkStart world lateEnvelope) c1 j eq_refl eq_refl Hle eq_refl)
    as [Hd _].
  exact Hd.
Defined.

Lemma second_dispatched :
  EvDispatch second
  ∈ (bulkLoop conf deserialize env 1 envelope (bulkStart world envelope)
              [item "app" "T" "two"]).2.
Proof. vm_compute. in_literal. Defined.

Lemma bulkLoop_dispatched_inherit_witness :
  EvDispatch second
    ∈ (bulkLoop conf deserialize env 1 envelope (bulkStart world envelope)
                [item "app" "T" "two"]).2
  ∧ ipAddr second = ipAddr envelope
  ∧ dateReceived second = dateReceived envelope.
Proof.
  split; [exact second_dispatched|].
  destruct (bulkLoop_dispatched_inherit conf deserialize env 1 envelope
              (bulkStart world envelope) [item "app" "T" "two"] second
              second_dispatched) as (Hip & Hdate & _).
  split; [exact Hip|exact Hdate].
Defined.

Lemma hello_dispatched_in_round :
  EvDispatch hello ∈ trace (round env [single hello]).
Proof. vm_compute. in_literal. Defined.

Lemma processRequestQueue_dispatched_valid_witness :
  EvDispatch hello ∈ trace (round env [single hello])
  ∧ (EvDispatch hello ∈ trace (holding [single hello])
     ∨ (isValid hello = true
        ∧ ∃ c, client hello = Some c ∧ clientId hello = id c)).
Proof.
  split; [exact hello_dispatched_in_round|].
  apply (processRequestQueue_dispatched_valid conf deserialize env decode
           (holding [single hello]) hello).
  exact hello_dispatched_in_round.
Defined.

Lemma hello_dispatched_without_bulk :
  EvDispatch hello
  ∈ trace (processRequestQueue confNoBulk deserialize env decode
             (holding [single hello])).
Proof. vm_compute. in_literal. Defined.

Lemma processRequestQueue_without_bulk_witness :
  hasFlag confNoBulk ALLOW_BULK_LOG_REQUEST = false
  ∧ EvDispatch hello
      ∈ trace (processRequestQueue confNoBulk deserialize env decode
                 (holding [single hello]))
  ∧ (EvDispatch hello ∈ trace (holding [single hello])
     ∨ ∃ n c, client hello = Some c
              ∧ isAlive c (dateReceived hello) = true
              ∧ (isRequestAllowed confNoBulk (env n) hello).1 = true).
Proof.
  split; [reflexivity|]. split; [exact hello_dispatched_without_bulk|].
  apply (processRequestQueue_without_bulk confNoBulk deserialize env decode
           (holding [single hello]) hello eq_refl).
  exact hello_dispatched_without_bulk.
Defined.

Lemma writeCallback_result_witness :
  (1 * 4 < 2 ^ 64)%N
  ∧ N.to_nat (1 * 4) = String.length "HTTP"
  ∧ HttpClient.writeCallback true "HTTP" 1 4 "" = (4%N, "HTTP")
  ∧ HttpClient.writeCallback false "/1.0" 1 4 "HTTP" = (0%N, "HTTP").
Proof.
  split; [reflexivity|]. split; [reflexivity|]. split.
  - destruct (writeCallback_result true "HTTP" 1 4 "" eq_refl eq_refl)
      as (Hres & _).
    exact Hres.
  - destruct (writeCallback_result false "/1.0" 1 4 "HTTP" eq_refl eq_refl)
      as (Hres & _).
    exact Hres.
Defined.

Lemma writeCallbacks_concat_witness :
  Forall HttpClient.wellFormed chunks
  ∧ HttpClient.writeCallbacks chunks "" = ([4%N; 5%N], "HTTP/1.0 ").
Proof.
  assert (Hw : Forall HttpClient.wellFormed chunks)
    by (repeat constructor).
  split; [exact Hw|].
  exact (writeCallbacks_concat chunks "" Hw).
Defined.

(** A frame handed to an idle handler is pulled by the second iteration of
    the dispatch thread. *)
Example handled_then_two_iterations :
  let h := run conf deserialize env decode
               [Handle (single hello); Iterate; Iterate] (holding []) in
  queueCalls (trace h)
  = [EvQueuePush; EvQueueSize 0; EvQueueSwitchContext; EvQueueSize 1;
     EvQueuePull; EvQueueSwitchContext]
  ∧ dispatched (trace h) = [hello]
  ∧ statusWritten (trace h) = [Response.STATUS_OK].
Proof. by vm_compute. Qed.

End ConcreteMore.
